(** * sqlx: named connection pools and a CRUD statement builder

    A shallow embedding of the Go package [sqlx] (dongrv/sqlx): the
    [KeyValue] splitter, the statement templates, the [Meta.Do] dispatcher,
    the [Easy*] convenience calls and the connection registry
    ([RegisterDB]/[New], [UnregisterDB]/[CloseAll], [Get]/[DB]).

    Go maps are [gmap]s; the order in which a [for ... range] statement
    visits a map is not fixed by the language, so every loop over a map
    takes a [ranger]: an enumeration of the entries, each exactly once, in
    an arbitrary order.  Calls run one at a time, so the registry lock is
    not modelled.  The package [database/sql] is outside the
    repository; it is modelled by the part of a [State] that numbers the
    pools opened, remembers which are closed and records every statement
    sent to a pool, and by a [Driver] that decides the outcome of each
    external call. *)

From Stdlib Require Import String Ascii List ZArith Lia Permutation.
From stdpp Require Import gmap strings list fin_maps.

Local Open Scope string_scope.
Local Open Scope list_scope.

(** ** Go values *)

(** [interface{}] payloads of a [KeyValue]; the package never inspects
    them, it only moves them into argument slices. *)
Inductive Value : Type :=
  | VNil
  | VInt (n : Z)
  | VStr (s : string)
  | VBool (b : bool).

(** A Go slice is either [nil] or a (possibly empty) backing sequence. *)
Inductive slice (A : Type) : Type :=
  | nil_slice
  | mk_slice (l : list A).
Arguments nil_slice {A}.
Arguments mk_slice {A} l.

Definition elems {A} (s : slice A) : list A :=
  match s with
  | nil_slice => []
  | mk_slice l => l
  end.

Definition is_nil {A} (s : slice A) : bool :=
  match s with
  | nil_slice => true
  | mk_slice _ => false
  end.

(** [make([]T, 0, n)]: empty, not nil. *)
Definition make_slice {A} (cap : nat) : slice A := mk_slice [].

(** [append(s, v)] *)
Definition append1 {A} (s : slice A) (v : A) : slice A :=
  mk_slice (elems s ++ [v]).

(** [append(s, t...)]: with nothing to add the result is [s] itself. *)
Definition append {A} (s t : slice A) : slice A :=
  match elems t with
  | [] => s
  | _ :: _ => mk_slice (elems s ++ elems t)
  end.

(** ** Strings *)

(** [s[:n]], for [n] within the length of [s]; both uses below cut one
    byte off a string that is not empty ([Split_cuts_in_range]). *)
Definition slice_to (s : string) (n : nat) : string := substring 0 n s.

(** [strings.Join(l, sep)] *)
Definition Join (l : list string) (sep : string) : string := String.concat sep l.

(** Number of occurrences of the byte [c] in [s]. *)
Fixpoint count_byte (c : ascii) (s : string) : nat :=
  match s with
  | EmptyString => 0
  | String a s' => (if Ascii.eqb a c then 1 else 0) + count_byte c s'
  end.

(** [fmt.Sprintf] restricted to the verb [%s] over string operands, which is
    all the statement templates use, each with as many operands as verbs.
    A verb with no operand left prints [%!s(MISSING)], as in Go. *)
Fixpoint Sprintf (format : string) (args : list string) : string :=
  match format with
  | String "%" (String "s" rest) =>
      match args with
      | a :: args' => a +:+ Sprintf rest args'
      | [] => "%!s(MISSING)" +:+ Sprintf rest []
      end
  | String c rest => String c (Sprintf rest args)
  | EmptyString => EmptyString
  end.

(** ** Map iteration order *)

(** One admissible order for [for k, v := range m]: every entry of the map
    exactly once. *)
Record ranger : Type := Ranger {
  range : forall A : Type, gmap string A -> list (string * A);
  range_perm : forall (A : Type) (m : gmap string A), range A m ≡ₚ map_to_list m
}.
Arguments range r {A} m.

(** The order in which [gmap] itself enumerates a map. *)
Definition canonical_ranger : ranger :=
  {| range := fun A m => map_to_list m;
     range_perm := fun A m => reflexivity _ |}.

(** The reverse of it. *)
Definition reverse_ranger : ranger :=
  {| range := fun A m => reverse (map_to_list m);
     range_perm := fun A m => reverse_Permutation _ |}.

(** ** KeyValue *)

Abbreviation KeyValue := (gmap string Value).

(** Identifier quoting as written in the loops: ["`" + k + "`"]. *)
Definition quote (k : string) : string := "`" +:+ k +:+ "`".

(** [func (kv KeyValue) Split() (string, string, []interface{})] *)
Definition Split (r : ranger) (kv : KeyValue) : string * string * slice Value :=
  if Nat.eqb (size kv) 0 then ("", "", mk_slice [])
  else
    let '(ps, field, args) :=
      foldl (fun '(ps, field, args) '(k, v) =>
               (ps +:+ "?,", field +:+ ("`" +:+ k +:+ "`,"), append1 args v))
            ("", "", make_slice (size kv)) (range r kv) in
    (slice_to field (String.length field - 1),
     slice_to ps (String.length ps - 1),
     args).

(** [func (kv KeyValue) SplitWrap() (string, []interface{})] *)
Definition SplitWrap (r : ranger) (kv : KeyValue) : string * slice Value :=
  if Nat.eqb (size kv) 0 then ("", mk_slice [])
  else
    let '(ps, args) :=
      foldl (fun '(ps, args) '(k, v) =>
               (ps +:+ ("`" +:+ k +:+ "`" +:+ "=?,"), append1 args v))
            ("", make_slice (size kv)) (range r kv) in
    (slice_to ps (String.length ps - 1), args).

(** [func (f Fields) Join() string] *)
Definition Fields_Join (f : list string) : string :=
  "`" +:+ Join f "`,`" +:+ "`".

(** Concatenation of the pieces a loop appends, in order. *)
Definition cat (l : list string) : string := foldr String.append "" l.

(** ** Errors *)

(** Go [error] values: the package's sentinels, [errors.New] values built
    at the point of return, and whatever [database/sql] reports. *)
Inductive error : Type :=
  | ErrUnregister                 (* "unregistered database connection" *)
  | ErrConnName                   (* "connection is not registered" *)
  | ErrResultNil                  (* "sqlx:result is nil" *)
  | ErrInvalidCurd                (* "sqlx:invalid operation" *)
  | errors_New (msg : string)
  | sql_error (msg : string).

(** ** database/sql *)

(** [sql.Result] *)
Record Result : Type := {
  LastInsertId : Z * option error;
  RowsAffected : Z * option error
}.

(** [*sql.Row] and [*sql.Rows], as far as a caller can scan them. *)
Inductive Row : Type := mk_Row (err : option error) (cols : list Value).
Inductive Rows : Type := mk_Rows (rs : list (list Value)).

(** [Config] *)
Record Config : Type := {
  DSN : string;
  MaxOpenConns : Z;
  MaxIdleConns : Z;
  MaxLifetime : Z;
  MaxIdleTime : Z
}.

(** What reaches a pool: every call the package makes on a [*sql.DB] or on
    a statement prepared from it. *)
Inductive Call : Type :=
  | Prepare (db : nat) (query : string)
  | StmtExec (db : nat) (query : string) (args : list Value)
  | StmtClose (db : nat) (query : string)
  | DBExec (db : nat) (query : string) (args : list Value)
  | DBQueryRow (db : nat) (query : string) (args : list Value)
  | DBQuery (db : nat) (query : string) (args : list Value).

(** The package-level registry together with the part of the environment
    the package acts on.  A [*sql.DB] is the number [sql.Open] gave it. *)
Record State : Type := {
  pool : gmap string nat;     (* [pool] / [connPool] *)
  opened : nat;               (* pools created by [sql.Open] so far *)
  closed : gset nat;          (* pools on which [Close] was called *)
  sent : list Call            (* calls made on pools, oldest first *)
}.

Definition set_pool (f : gmap string nat -> gmap string nat) (st : State) : State :=
  {| pool := f (pool st); opened := opened st; closed := closed st; sent := sent st |}.

Definition record_call (c : Call) (st : State) : State :=
  {| pool := pool st; opened := opened st; closed := closed st; sent := sent st ++ [c] |}.

(** The state once [sql.Open] has created one more pool. *)
Definition alloc_pool (st : State) : State :=
  {| pool := pool st; opened := S (opened st); closed := closed st; sent := sent st |}.

(** The state once [Close] has been called on the pool [db]. *)
Definition close_pool (db : nat) (st : State) : State :=
  {| pool := pool st; opened := opened st; closed := {[db]} ∪ closed st;
     sent := sent st |}.

Definition empty_State : State :=
  {| pool := ∅; opened := 0; closed := ∅; sent := [] |}.

(** The outcome of each external call, which may depend on everything that
    happened before it. *)
Record Driver : Type := {
  open_err : State -> Config -> option error;
  ping_err : State -> nat -> option error;
  close_err : State -> nat -> option error;
  prepare_err : State -> nat -> string -> option error;
  stmt_exec : State -> nat -> string -> list Value -> Result + error;
  db_exec : State -> nat -> string -> list Value -> Result + error;
  query_row : State -> nat -> string -> list Value -> Row;
  query_rows : State -> nat -> string -> list Value -> Rows + error;
  clock : State -> Z          (* monotonic reading, nanoseconds *)
}.

(** ** State passing *)

Definition M (A : Type) : Type := State -> A * State.

Definition ret {A} (a : A) : M A := fun st => (a, st).

Definition bind {A B} (m : M A) (k : A -> M B) : M B :=
  fun st => let (a, st') := m st in k a st'.

Notation "'let*' x ':=' m 'in' k" := (bind m (fun x => k))
  (at level 10, x pattern, m at level 100, k at level 200).

(** The two halves of a Go result pair [(T, error)]. *)
Definition val_of {T} (x : T + error) : option T :=
  match x with
  | inl t => Some t
  | inr _ => None
  end.

Definition err_of {T} (x : T + error) : option error :=
  match x with
  | inl _ => None
  | inr e => Some e
  end.

(** ** Operation descriptors *)

(** [type Curd uint8] with [C], [U], [R], [D] numbered by [iota]. *)
Definition C : N := 0.
Definition U : N := 1.
Definition R : N := 2.
Definition D : N := 3.

(** [type Query struct] *)
Record Query : Type := {
  Fields : list string;
  Batch : bool
}.

(** [type Meta struct]; the field [Query] is [Meta_Query] here. *)
Record Meta : Type := {
  Op : N;
  Table : string;
  Meta_Query : Query;
  Values : KeyValue;
  Where : KeyValue
}.

(** [type Done struct]; [Runtime] is kept in nanoseconds, the reading
    [time.Since(t)] gives before it is turned into seconds. *)
Record Done : Type := {
  result : option Result;
  row : option Row;
  rows : option Rows;
  Err : option error;
  Runtime : Z
}.

Definition set_Runtime (t : Z) (done : Done) : Done :=
  {| result := result done; row := row done; rows := rows done;
     Err := Err done; Runtime := t |}.

(** The statement templates. *)
Definition rawInsert : string := "INSERT INTO %s(%s)VALUES(%s)".
Definition rawUpdate : string := "UPDATE %s SET %s WHERE %s".
Definition rawDelete : string := "DELETE FROM %s WHERE %s".
Definition rawQuery : string := "SELECT %s FROM %s WHERE %s".
Definition rawQueryAll : string := "SELECT * FROM %s WHERE %s".

(** [&sql.Row{}] *)
Definition zero_Row : Row := mk_Row None [].

(** A call either returns or panics. *)
Inductive outcome (A : Type) : Type :=
  | panics (msg : string)
  | returned (a : A).
Arguments panics {A} msg.
Arguments returned {A} a.

Section Package.
Variable d : Driver.

(** *** Pool primitives *)

Definition sql_Open (c : Config) : M (nat + error) :=
  fun st =>
    match open_err d st c with
    | Some e => (inr e, st)
    | None => (inl (opened st), alloc_pool st)
    end.

Definition DB_Ping (db : nat) : M (option error) :=
  fun st => (ping_err d st db, st).

Definition DB_Close (db : nat) : M (option error) :=
  fun st => (close_err d st db, close_pool db st).

Definition DB_Prepare (db : nat) (query : string) : M (option error) :=
  fun st => (prepare_err d st db query, record_call (Prepare db query) st).

Definition Stmt_Exec (db : nat) (query : string) (args : slice Value)
  : M (Result + error) :=
  fun st => (stmt_exec d st db query (elems args),
             record_call (StmtExec db query (elems args)) st).

Definition Stmt_Close (db : nat) (query : string) : M unit :=
  fun st => (tt, record_call (StmtClose db query) st).

Definition DB_Exec (db : nat) (query : string) (args : slice Value)
  : M (Result + error) :=
  fun st => (db_exec d st db query (elems args),
             record_call (DBExec db query (elems args)) st).

Definition DB_QueryRow (db : nat) (query : string) (args : slice Value)
  : M Row :=
  fun st => (query_row d st db query (elems args),
             record_call (DBQueryRow db query (elems args)) st).

Definition DB_Query (db : nat) (query : string) (args : slice Value)
  : M (Rows + error) :=
  fun st => (query_rows d st db query (elems args),
             record_call (DBQuery db query (elems args)) st).

(** *** Registry *)

(** [func (c Config) Validate() bool], as [New] uses it. *)
Definition Config_Validate (c : Config) : bool :=
  negb (String.eqb (DSN c) "") && (0 <=? MaxOpenConns c)%Z
  && (0 <=? MaxIdleConns c)%Z && (0 <=? MaxLifetime c)%Z
  && (0 <=? MaxIdleTime c)%Z.

(** [func (cmp ConfigMap) Set(connName string, config Config) error].  A
    [ConfigMap] is nil ([None]) or a map; the map is changed in place, so
    the call returns the error and the map as it is afterwards.  Reading a
    nil map finds nothing, and the assignment into it panics. *)
Definition ConfigMap_Set (cmp : option (gmap string Config)) (connName : string)
    (config : Config) : outcome (option error * gmap string Config) :=
  match cmp with
  | None => panics "assignment to entry in nil map"
  | Some m =>
      match m !! connName with
      | Some _ => returned (Some (errors_New "exists connection config"), m)
      | None => returned (None, <[connName := config]> m)
      end
  end.

(** [func (cmp ConfigMap) Validate() bool] *)
Definition ConfigMap_Validate (r : ranger) (cmp : gmap string Config) : bool :=
  (fix loop (l : list (string * Config)) : bool :=
     match l with
     | [] => true
     | (_, c) :: l' => if negb (Config_Validate c) then false else loop l'
     end) (range r cmp).

(** [func Open(c Config) ( *sql.DB, error)]; the four pool-sizing setters
    act on the new pool only. *)
Definition Open (c : Config) : M (nat + error) :=
  let* conn := sql_Open c in
  match conn with
  | inr err => ret (inr err)
  | inl conn => ret (inl conn)
  end.

(** [func Close(db *sql.DB) error]; the assignment [db = nil] changes the
    parameter only. *)
Definition Close (db : option nat) : M (option error) :=
  match db with
  | Some h => let* err := DB_Close h in ret err
  | None => ret None
  end.

(** The loop of [RegisterDB] and of [New] over the visited entries. *)
Fixpoint register_loop (l : list (string * Config)) : M (option error) :=
  match l with
  | [] => ret None
  | (s, config) :: l' =>
      let* conn := Open config in
      match conn with
      | inr err => ret (Some err)
      | inl conn =>
          let* err := DB_Ping conn in
          match err with
          | Some err => ret (Some err)
          | None => fun st => register_loop l' (set_pool (insert s conn) st)
          end
      end
  end.

(** [func RegisterDB(dbConfigs map[string]Config) error] *)
Definition RegisterDB (r : ranger) (dbConfigs : gmap string Config)
  : M (option error) :=
  register_loop (range r dbConfigs).

(** [func New(configs ConfigMap) error] *)
Definition New (rv r : ranger) (configs : gmap string Config)
  : M (option error) :=
  if negb (ConfigMap_Validate rv configs)
  then ret (Some (errors_New "incorrect config parameters"))
  else register_loop (range r configs).

(** The sweep of [UnregisterDB] and [CloseAll]. *)
Fixpoint close_loop (l : list (string * nat)) : M unit :=
  match l with
  | [] => ret tt
  | (_, db) :: l' => let* _ := Close (Some db) in close_loop l'
  end.

(** [func UnregisterDB()] *)
Definition UnregisterDB (r : ranger) : M unit :=
  fun st => close_loop (range r (pool st)) st.

(** [func CloseAll()] *)
Definition CloseAll (r : ranger) : M unit :=
  fun st => close_loop (range r (pool st)) st.

(** [type Conn struct { db *sql.DB }] *)
Record Conn : Type := { db : nat }.

(** [func Get(connName string) ( *Conn, error)], later named [DB]. *)
Definition Get (connName : string) : M (option Conn * option error) :=
  if String.eqb connName "" then ret (None, Some ErrConnName)
  else fun st =>
    match pool st !! connName with
    | Some p => ((Some {| db := p |}, None), st)
    | None => ((None, Some ErrUnregister), st)
    end.

Definition DB : string -> M (option Conn * option error) := Get.

(** *** Connection *)

(** [func (c *Conn) execute]: prepare, execute, and the deferred
    [stat.Close()] before returning. *)
Definition execute (c : Conn) (query : string) (args : slice Value)
  : M (Result + error) :=
  let* err := DB_Prepare (db c) query in
  match err with
  | Some err => ret (inr err)
  | None =>
      let* res := Stmt_Exec (db c) query args in
      let* _ := Stmt_Close (db c) query in
      ret res
  end.

Definition Conn_Create := execute.
Definition Conn_Delete := execute.
Definition Conn_Update := execute.

Definition Conn_QueryRow (c : Conn) (query : string) (args : slice Value)
  : M Row := DB_QueryRow (db c) query args.

Definition Conn_QueryRows (c : Conn) (query : string) (args : slice Value)
  : M (Rows + error) := DB_Query (db c) query args.

(** *** Dispatcher *)

(** [func (m *Meta) Do(conn *Conn) (done Done)].  [rv] is the order of
    the loop over [m.Values], [rw] the order of the loop over [m.Where]. *)
Definition Do (rv rw : ranger) (m : Meta) (conn : Conn) : M Done :=
  fun st0 =>
    let t := clock d st0 in
    let body : M Done :=
      if N.eqb (Op m) C then
        let '(fields, pd, args) := Split rv (Values m) in
        let* res := Conn_Create conn (Sprintf rawInsert [Table m; fields; pd]) args in
        ret {| result := val_of res; row := None; rows := None;
               Err := err_of res; Runtime := 0 |}
      else if N.eqb (Op m) U then
        let '(fields, args) := SplitWrap rv (Values m) in
        let '(where_, whereArgs) := SplitWrap rw (Where m) in
        let merge := append args whereArgs in
        let* res := Conn_Update conn (Sprintf rawUpdate [Table m; fields; where_]) merge in
        ret {| result := val_of res; row := None; rows := None;
               Err := err_of res; Runtime := 0 |}
      else if N.eqb (Op m) R then
        let search := "*" in
        let '(fields, args) := SplitWrap rw (Where m) in
        let search :=
          if Nat.ltb 0 (length (Fields (Meta_Query m)))
          then Join (Fields (Meta_Query m)) ","
          else search in
        if Batch (Meta_Query m) then
          let* res := Conn_QueryRows conn (Sprintf rawQuery [search; Table m; fields]) args in
          ret {| result := None; row := None; rows := val_of res;
                 Err := err_of res; Runtime := 0 |}
        else
          let* res := Conn_QueryRow conn (Sprintf rawQuery [search; Table m; fields]) args in
          ret {| result := None; row := Some res; rows := None;
                 Err := None; Runtime := 0 |}
      else if N.eqb (Op m) D then
        let '(field, args) := SplitWrap rw (Where m) in
        let* res := Conn_Delete conn (Sprintf rawDelete [Table m; field]) args in
        ret {| result := val_of res; row := None; rows := None;
               Err := err_of res; Runtime := 0 |}
      else
        ret {| result := None; row := None; rows := None;
               Err := Some ErrInvalidCurd; Runtime := 0 |} in
    let (done, st1) := body st0 in
    (set_Runtime (clock d st1 - t) done, st1).

(** [func (c *Conn) Do(m *Meta) Done] *)
Definition Conn_Do (rv rw : ranger) (c : Conn) (m : Meta) : M Done :=
  Do rv rw m c.

(** *** Convenient call methods *)

(** [func (c *Conn) TraceExec]; what it writes to the trace context is
    outside the package and left out. *)
Definition TraceExec (c : Conn) (query : string) (args : slice Value)
  : M (Result + error) :=
  let* res := DB_Exec (db c) query args in
  match res with
  | inr err => ret (inr err)
  | inl result =>
      match RowsAffected result with
      | (_, Some err) => ret (inr err)
      | (_, None) => ret (inl result)
      end
  end.

Definition TraceInsert := TraceExec.
Definition TraceDelete := TraceExec.
Definition TraceUpdate := TraceExec.

(** [func (c *Conn) TraceSelect]; [QueryRow] never returns nil, so the
    branch that substitutes [&sql.Row{}] for a nil row is not taken. *)
Definition TraceSelect (c : Conn) (query : string) (args : slice Value)
  : M Row := DB_QueryRow (db c) query args.

(** [func (c *Conn) TraceSelectBatch] *)
Definition TraceSelectBatch (c : Conn) (query : string) (args : slice Value)
  : M (option Rows) :=
  let* res := DB_Query (db c) query args in
  match res with
  | inr _ => ret None
  | inl rows => ret (Some rows)
  end.

(** [func (c *Conn) EasyInsert] *)
Definition EasyInsert (r : ranger) (c : Conn) (table : string) (kv : KeyValue)
  : M (Result + error) :=
  if Nat.eqb (size kv) 0 then ret (inr (errors_New "invalid insert values"))
  else
    let '(fields, placeholders, args) := Split r kv in
    TraceExec c (Sprintf rawInsert [table; fields; placeholders]) args.

(** [func (c *Conn) EasyDelete] *)
Definition EasyDelete (r : ranger) (c : Conn) (table : string) (where_ : KeyValue)
  : M (Result + error) :=
  if Nat.eqb (size where_) 0 then ret (inr (errors_New "invalid delete condition"))
  else
    let '(fields, args) := SplitWrap r where_ in
    TraceExec c (Sprintf rawDelete [table; fields]) args.

(** [func (c *Conn) EasyUpdate] *)
Definition EasyUpdate (rv rw : ranger) (c : Conn) (table : string)
    (kv where_ : KeyValue) : M (Result + error) :=
  if Nat.eqb (size kv) 0 || Nat.eqb (size where_) 0
  then ret (inr (errors_New "invalid update KeyValue"))
  else
    let '(setFields, setArgs) := SplitWrap rv kv in
    let '(whereFields, whereArgs) := SplitWrap rw where_ in
    let setArgs := append setArgs whereArgs in
    TraceUpdate c (Sprintf rawUpdate [table; setFields; whereFields]) setArgs.

(** [func (c *Conn) EasySelect] *)
Definition EasySelect (r : ranger) (c : Conn) (table : string)
    (fields : list string) (where_ : KeyValue) : M Row :=
  if Nat.eqb (length fields) 0 || Nat.eqb (size where_) 0 then ret zero_Row
  else
    let '(whereFields, whereArgs) := SplitWrap r where_ in
    let query := Sprintf rawQuery [Fields_Join fields; table; whereFields] in
    TraceSelect c query whereArgs.

(** [func (c *Conn) EasySelectBatch] *)
Definition EasySelectBatch (r : ranger) (c : Conn) (table : string)
    (fields : list string) (where_ : KeyValue) : M (option Rows) :=
  if Nat.eqb (length fields) 0 then ret None
  else
    let '(fieldsW, args) := SplitWrap r where_ in
    let query := Sprintf rawQuery [Fields_Join fields; table; fieldsW] in
    TraceSelectBatch c query args.

End Package.

(** ** Result accessors, options and the remaining connection methods *)

(** [func (d Done) LastInsertId() (int64, error)] *)
Definition Done_LastInsertId (dn : Done) : Z * option error :=
  match result dn with
  | Some res => LastInsertId res
  | None => ((-1)%Z, Some ErrResultNil)
  end.

(** [func (d Done) RowsAffected() (int64, error)] *)
Definition Done_RowsAffected (dn : Done) : Z * option error :=
  match result dn with
  | Some res => RowsAffected res
  | None => ((-1)%Z, Some ErrResultNil)
  end.

(** [func (d Done) Row() *sql.Row] *)
Definition Done_Row (dn : Done) : option Row := row dn.

(** [func (d Done) Rows() ( *sql.Rows, error)] *)
Definition Done_Rows (dn : Done) : option Rows * option error := (rows dn, Err dn).

(** [func (d Done) Error() error] *)
Definition Done_Error (dn : Done) : option error := Err dn.

(** [type OptionFunc func( *Meta)]: what the function does to the [Meta] it
    is handed. *)
Definition OptionFunc : Type := Meta -> Meta.

(** [func WrapOp(curd Curd) OptionFunc] *)
Definition WrapOp (curd : N) : OptionFunc :=
  fun m => {| Op := curd; Table := Table m; Meta_Query := Meta_Query m;
              Values := Values m; Where := Where m |}.

(** [func WrapTable(tableName string) OptionFunc] *)
Definition WrapTable (tableName : string) : OptionFunc :=
  fun m => {| Op := Op m; Table := tableName; Meta_Query := Meta_Query m;
              Values := Values m; Where := Where m |}.

(** [func WrapQuery(fields []string, batch bool) OptionFunc] *)
Definition WrapQuery (fields : list string) (batch : bool) : OptionFunc :=
  fun m => {| Op := Op m; Table := Table m;
              Meta_Query := {| Fields := fields; Batch := batch |};
              Values := Values m; Where := Where m |}.

(** [func WrapValues(kv KeyValue) OptionFunc] *)
Definition WrapValues (kv : KeyValue) : OptionFunc :=
  fun m => {| Op := Op m; Table := Table m; Meta_Query := Meta_Query m;
              Values := kv; Where := Where m |}.

(** [func WrapWhere(kv KeyValue) OptionFunc] *)
Definition WrapWhere (kv : KeyValue) : OptionFunc :=
  fun m => {| Op := Op m; Table := Table m; Meta_Query := Meta_Query m;
              Values := Values m; Where := kv |}.

(** [&Meta{Query: Query{}}]: every field at its zero value. *)
Definition zero_Meta : Meta :=
  {| Op := 0; Table := ""; Meta_Query := {| Fields := []; Batch := false |};
     Values := ∅; Where := ∅ |}.

(** [func NewMeta(fs ...OptionFunc) *Meta] *)
Definition NewMeta (fs : list OptionFunc) : Meta :=
  foldl (fun m f => f m) zero_Meta fs.

Section Connection.
Variable d : Driver.

(** [func (c *Conn) Ping() error] *)
Definition Conn_Ping (c : Conn) : M (option error) := DB_Ping d (db c).

(** [func (c *Conn) Close() error] *)
Definition Conn_Close (c : Conn) : M (option error) := Close d (Some (db c)).

End Connection.

(** ** Transactions *)

(** The calls [ExecTx] and [ExecBatchTx] make on a pool, on the transaction
    begun on it and on the statements prepared in the transaction. *)
Inductive TxCall : Type :=
  | Begin (db : nat)
  | TxPrepare (db : nat) (query : string)
  | TxStmtExec (db : nat) (query : string) (args : list Value)
  | TxStmtClose (db : nat) (query : string)
  | Commit (db : nat)
  | Rollback (db : nat).

(** The outcome of each of these calls, given the calls made so far. *)
Record TxDriver : Type := {
  begin_err : list TxCall -> nat -> option error;
  tx_prepare_err : list TxCall -> nat -> string -> option error;
  tx_stmt_exec : list TxCall -> nat -> string -> list Value -> Result + error;
  commit_err : list TxCall -> nat -> option error
}.

(** [type Tx struct { Query string; Args []interface{} }] *)
Record Tx : Type := {
  Tx_Query : string;
  Tx_Args : slice Value
}.

(** State passing over the log of calls. *)
Definition T (A : Type) : Type := list TxCall -> A * list TxCall.

Definition retT {A} (a : A) : T A := fun log => (a, log).

Definition bindT {A B} (m : T A) (k : A -> T B) : T B :=
  fun log => let (a, log') := m log in k a log'.

Notation "'let+' x ':=' m 'in' k" := (bindT m (fun x => k))
  (at level 10, x pattern, m at level 100, k at level 200).

Section Transactions.
Variable t : TxDriver.

(** [func (c *Conn) BeginTx(ctx context.Context) ( *sql.Tx, error)]; a nil
    context is replaced by [context.Background()], and cancellation is not
    modelled.  The transaction is known by its pool. *)
Definition BeginTx (c : Conn) : T (option error) :=
  fun log => (begin_err t log (db c), log ++ [Begin (db c)]).

Definition Tx_Prepare (db : nat) (query : string) : T (option error) :=
  fun log => (tx_prepare_err t log db query, log ++ [TxPrepare db query]).

Definition TxStmt_Exec (db : nat) (query : string) (args : slice Value)
  : T (Result + error) :=
  fun log => (tx_stmt_exec t log db query (elems args),
              log ++ [TxStmtExec db query (elems args)]).

Definition TxStmt_Close (db : nat) (query : string) : T unit :=
  fun log => (tt, log ++ [TxStmtClose db query]).

Definition Tx_Commit (db : nat) : T (option error) :=
  fun log => (commit_err t log db, log ++ [Commit db]).

Definition Tx_Rollback (db : nat) : T unit :=
  fun log => (tt, log ++ [Rollback db]).

(** [func (c *Conn) ExecTx(ctx, query string, args ...interface{})
    (sql.Result, error)].  The deferred calls run last in, first out, on
    every return after they were registered: [stat.Close()], then
    [tx.Rollback()].  What the deferred [stat.Close()] assigns to [err]
    comes after the return values are set. *)
Definition ExecTx (c : Conn) (query : string) (args : slice Value)
  : T (option Result * option error) :=
  let+ err := BeginTx c in
  match err with
  | Some err => retT (None, Some err)
  | None =>
      let+ err := Tx_Prepare (db c) query in
      match err with
      | Some err =>
          let+ _ := Tx_Rollback (db c) in
          retT (None, Some err)
      | None =>
          let+ res := TxStmt_Exec (db c) query args in
          match res with
          | inr err =>
              let+ _ := TxStmt_Close (db c) query in
              let+ _ := Tx_Rollback (db c) in
              retT (None, Some err)
          | inl result =>
              let+ err := Tx_Commit (db c) in
              let+ _ := TxStmt_Close (db c) query in
              let+ _ := Tx_Rollback (db c) in
              retT (Some result, err)
          end
      end
  end.

(** The loop of [ExecBatchTx]: [result] is the result of the statement
    executed last; a statement is closed only after it was executed. *)
Fixpoint batch_loop (c : Conn) (txs : list Tx) (result : option Result)
  : T (option Result + error) :=
  match txs with
  | [] => retT (inl result)
  | x :: txs' =>
      let+ err := Tx_Prepare (db c) (Tx_Query x) in
      match err with
      | Some err => retT (inr err)
      | None =>
          let+ res := TxStmt_Exec (db c) (Tx_Query x) (Tx_Args x) in
          match res with
          | inr err => retT (inr err)
          | inl result =>
              let+ _ := TxStmt_Close (db c) (Tx_Query x) in
              batch_loop c txs' (Some result)
          end
      end
  end.

(** [func (c *Conn) ExecBatchTx(ctx, txs ...Tx) (sql.Result, error)] *)
Definition ExecBatchTx (c : Conn) (txs : list Tx)
  : T (option Result * option error) :=
  let+ err := BeginTx c in
  match err with
  | Some err => retT (None, Some err)
  | None =>
      if Nat.eqb (length txs) 0 then
        let+ _ := Tx_Rollback (db c) in
        retT (None, Some (errors_New "empty submit tx"))
      else
        let+ res := batch_loop c txs None in
        match res with
        | inr err =>
            let+ _ := Tx_Rollback (db c) in
            retT (None, Some err)
        | inl result =>
            let+ err := Tx_Commit (db c) in
            let+ _ := Tx_Rollback (db c) in
            retT (result, err)
        end
  end.

End Transactions.

(** ** Reading the splitter's output *)

(** The clause [SplitWrap] writes for a key. *)
Definition clause (k : string) : string := quote k +:+ "=?".




(** ** Reading the calls a dispatch makes *)

(** The calls [execute] makes on the pool: the statement is prepared, and
    only a statement that could be prepared is executed and closed. *)
Definition execute_calls (d : Driver) (st : State) (c : Conn) (query : string)
    (args : list Value) : list Call :=
  Prepare (db c) query ::
  match prepare_err d st (db c) query with
  | Some _ => []
  | None => [StmtExec (db c) query args; StmtClose (db c) query]
  end.

(** ** Reading the registry *)

(** The state after the entries [l] were registered one after the other,
    each with the pool [sql.Open] created for it. *)
Fixpoint after_registering (l : list (string * Config)) (st : State) : State :=
  match l with
  | [] => st
  | (s, _) :: l' =>
      after_registering l' (set_pool (insert s (opened st)) (alloc_pool st))
  end.

(** Registering an entry with the configuration [c] fails in [st] with [e]:
    the pool cannot be opened, or it is opened and cannot be reached. *)
Definition entry_fails (d : Driver) (st : State) (c : Config) (e : error) : Prop :=
  open_err d st c = Some e
  \/ (open_err d st c = None /\ ping_err d (alloc_pool st) (opened st) = Some e).

(** Registering an entry with the configuration [c] succeeds in [st]: the
    pool opens and answers the ping. *)
Definition entry_succeeds (d : Driver) (st : State) (c : Config) : Prop :=
  open_err d st c = None /\ ping_err d (alloc_pool st) (opened st) = None.

(** Every entry of [l] succeeds in its turn, in the state the entries before
    it have left. *)
Definition registrations_succeed (d : Driver) (l : list (string * Config))
    (st : State) : Prop :=
  forall l1 k c l2, l = l1 ++ (k, c) :: l2 ->
    entry_succeeds d (after_registering l1 st) c.

(** The state after [Close] was called on every pool of [l]. *)
Definition after_closing (l : list nat) (st : State) : State :=
  {| pool := pool st; opened := opened st;
     closed := list_to_set l ∪ closed st; sent := sent st |}.

(** Every pool the registry or the set of closed pools knows was opened
    before, and no two names share a pool. *)
Definition registry_ok (st : State) : Prop :=
  (forall n p, pool st !! n = Some p -> p < opened st)
  /\ (forall n n' p, pool st !! n = Some p -> pool st !! n' = Some p -> n = n')
  /\ (forall p, p ∈ closed st -> p < opened st).

(** A configuration [Config.Validate] accepts. *)
Definition valid_Config (c : Config) : Prop :=
  DSN c <> "" /\ (0 <= MaxOpenConns c)%Z /\ (0 <= MaxIdleConns c)%Z
  /\ (0 <= MaxLifetime c)%Z /\ (0 <= MaxIdleTime c)%Z.

(** ** Reading a dispatch *)

(** The pool a call is made on. *)
Definition call_db (c : Call) : nat :=
  match c with
  | Prepare db _ | StmtExec db _ _ | StmtClose db _
  | DBExec db _ _ | DBQueryRow db _ _ | DBQuery db _ _ => db
  end.

(** How many of the three payloads of a [Done] are not nil. *)
Definition populated (dn : Done) : nat :=
  match result dn with Some _ => 1 | None => 0 end
  + match row dn with Some _ => 1 | None => 0 end
  + match rows dn with Some _ => 1 | None => 0 end.

(** ** Reading a transaction *)

(** The calls of a batch whose statements were all prepared, executed and
    closed, one after the other. *)
Definition batch_calls (db : nat) (txs : list Tx) : list TxCall :=
  concat ((fun x => [TxPrepare db (Tx_Query x);
                     TxStmtExec db (Tx_Query x) (elems (Tx_Args x));
                     TxStmtClose db (Tx_Query x)]) <$> txs).

(** What the database answers when the statement [x] of a batch is
    prepared, and when it is executed, after the statements [txs1] before
    it were prepared, executed and closed; [log0] is the log when the batch
    starts. *)
Definition stmt_prepares (t : TxDriver) (db : nat) (log0 : list TxCall)
    (txs1 : list Tx) (x : Tx) : option error :=
  tx_prepare_err t (log0 ++ batch_calls db txs1) db (Tx_Query x).

Definition stmt_executes (t : TxDriver) (db : nat) (log0 : list TxCall)
    (txs1 : list Tx) (x : Tx) : Result + error :=
  tx_stmt_exec t (log0 ++ batch_calls db txs1 ++ [TxPrepare db (Tx_Query x)])
    db (Tx_Query x) (elems (Tx_Args x)).

(** Every statement of [txs] can be prepared and executed in its turn. *)
Definition stmts_run (t : TxDriver) (db : nat) (log0 : list TxCall)
    (txs : list Tx) : Prop :=
  forall txs1 x txs2, txs = txs1 ++ x :: txs2 ->
    stmt_prepares t db log0 txs1 x = None
    /\ exists r, stmt_executes t db log0 txs1 x = inl r.

(** ** Inputs used in examples *)

(** The value map of [createRow] in the example program. *)
Definition kv_name : KeyValue :=
  <["first_name" := VStr "foo"]> (<["last_name" := VStr "bar"]> ∅).

(** The value and condition maps of [updateRow]. *)
Definition kv_tomi : KeyValue :=
  <["first_name" := VStr "Tomi"]> (<["last_name" := VStr "Dog"]> ∅).

Definition kv_id (n : Z) : KeyValue := <["id" := VInt n]> ∅.

Definition no_Query : Query := {| Fields := []; Batch := false |}.

(** [createRow], [updateRow], [deleteRow] and [queryRow] of the example. *)
Definition profile_create : Meta :=
  {| Op := C; Table := "profile"; Meta_Query := no_Query;
     Values := kv_name; Where := ∅ |}.

Definition profile_update : Meta :=
  {| Op := U; Table := "profile"; Meta_Query := no_Query;
     Values := kv_tomi; Where := kv_id 1 |}.

Definition profile_delete : Meta :=
  {| Op := D; Table := "profile"; Meta_Query := no_Query;
     Values := ∅; Where := kv_id 101 |}.

Definition profile_query : Meta :=
  {| Op := R; Table := "profile";
     Meta_Query := {| Fields := ["first_name"; "last_name"]; Batch := false |};
     Values := ∅; Where := kv_id 1 |}.

(** A create with no values at all. *)
Definition profile_create_nothing : Meta :=
  {| Op := C; Table := "profile"; Meta_Query := no_Query;
     Values := ∅; Where := ∅ |}.

(** A delete with no condition at all. *)
Definition profile_delete_nothing : Meta :=
  {| Op := D; Table := "profile"; Meta_Query := no_Query;
     Values := ∅; Where := ∅ |}.

(** An operation code outside [C], [U], [R], [D]. *)
Definition profile_bogus : Meta :=
  {| Op := 7; Table := "profile"; Meta_Query := no_Query;
     Values := kv_name; Where := kv_id 1 |}.

Definition ok_Result : Result :=
  {| LastInsertId := (1%Z, None); RowsAffected := (1%Z, None) |}.

(** A database that accepts everything. *)
Definition ok_driver : Driver :=
  {| open_err := fun _ _ => None;
     ping_err := fun _ _ => None;
     close_err := fun _ _ => None;
     prepare_err := fun _ _ _ => None;
     stmt_exec := fun _ _ _ _ => inl ok_Result;
     db_exec := fun _ _ _ _ => inl ok_Result;
     query_row := fun _ _ _ _ => mk_Row None [];
     query_rows := fun _ _ _ _ => inl (mk_Rows []);
     clock := fun st => Z.of_nat (length (sent st)) |}.

(** A database whose second pool cannot be reached. *)
Definition second_unreachable : Driver :=
  {| open_err := fun _ _ => None;
     ping_err := fun _ h =>
       if Nat.eqb h 1 then Some (sql_error "dial tcp: connection refused") else None;
     close_err := fun _ _ => None;
     prepare_err := fun _ _ _ => None;
     stmt_exec := fun _ _ _ _ => inl ok_Result;
     db_exec := fun _ _ _ _ => inl ok_Result;
     query_row := fun _ _ _ _ => mk_Row None [];
     query_rows := fun _ _ _ _ => inl (mk_Rows []);
     clock := fun st => Z.of_nat (length (sent st)) |}.

Definition conn0 : Conn := {| db := 0 |}.

Definition game_Config : Config :=
  {| DSN := "root:123456@tcp(127.0.0.1:3306)/test";
     MaxOpenConns := 100; MaxIdleConns := 20;
     MaxLifetime := 100; MaxIdleTime := 3600 |}.

Definition log_Config : Config :=
  {| DSN := "root:123456@tcp(127.0.0.1:3306)/unity";
     MaxOpenConns := 100; MaxIdleConns := 20;
     MaxLifetime := 100; MaxIdleTime := 3600 |}.

(** [configs] of the example program. *)
Definition configs : gmap string Config :=
  <["game" := game_Config]> (<["log" := log_Config]> ∅).

(** Transactions on a database that accepts everything. *)
Definition ok_tx_driver : TxDriver :=
  {| begin_err := fun _ _ => None;
     tx_prepare_err := fun _ _ _ => None;
     tx_stmt_exec := fun _ _ _ _ => inl ok_Result;
     commit_err := fun _ _ => None |}.

(** Transactions on a database that refuses to execute [DROP TABLE profile]. *)
Definition no_drop_tx_driver : TxDriver :=
  {| begin_err := fun _ _ => None;
     tx_prepare_err := fun _ _ _ => None;
     tx_stmt_exec := fun _ _ q _ =>
       if String.eqb q "DROP TABLE profile"
       then inr (sql_error "command denied") else inl ok_Result;
     commit_err := fun _ _ => None |}.

(** The statement of [runTx] in the example program, and one more. *)
Definition tx_bill : Tx :=
  {| Tx_Query := "UPDATE profile SET  last_name = ? WHERE id=?";
     Tx_Args := mk_slice [VStr "Bill"; VInt 1] |}.

Definition tx_drop : Tx :=
  {| Tx_Query := "DROP TABLE profile"; Tx_Args := mk_slice [] |}.

(** A configuration with no DSN. *)
Definition no_dsn_Config : Config :=
  {| DSN := ""; MaxOpenConns := 100; MaxIdleConns := 20;
     MaxLifetime := 100; MaxIdleTime := 3600 |}.

(** * Verification *)

Example Split_kv_name :
  Split canonical_ranger kv_name
  = ("`first_name`,`last_name`", "?,?", mk_slice [VStr "foo"; VStr "bar"])
  /\ Split reverse_ranger kv_name
  = ("`last_name`,`first_name`", "?,?", mk_slice [VStr "bar"; VStr "foo"])
  /\ SplitWrap canonical_ranger kv_name
  = ("`first_name`=?,`last_name`=?", mk_slice [VStr "foo"; VStr "bar"]).
Proof. repeat split; vm_compute; reflexivity. Qed.

(** ** Facts about strings *)

Section StringFacts.

Lemma str_app_cons (c : ascii) (s t : string) :
  String c s +:+ t = String c (s +:+ t).
Proof. reflexivity. Qed.

Lemma str_app_nil_l (s : string) : "" +:+ s = s.
Proof. reflexivity. Qed.

Lemma str_app_assoc (s t u : string) : (s +:+ t) +:+ u = s +:+ (t +:+ u).
Proof.
  induction s as [|c s IH]; [reflexivity |].
  now rewrite !str_app_cons, IH.
Qed.

Lemma str_app_nil_r (s : string) : s +:+ "" = s.
Proof.
  induction s as [|c s IH]; [reflexivity |].
  now rewrite str_app_cons, IH.
Qed.

Lemma str_length_app (s t : string) :
  String.length (s +:+ t) = String.length s + String.length t.
Proof.
  induction s as [|c s IH]; [reflexivity |].
  rewrite str_app_cons. simpl. now rewrite IH.
Qed.

Lemma slice_to_app_plus (s t : string) (n : nat) :
  slice_to (s +:+ t) (String.length s + n) = s +:+ slice_to t n.
Proof.
  unfold slice_to. induction s as [|c s IH]; [reflexivity |].
  rewrite !str_app_cons. simpl. now rewrite IH.
Qed.

Lemma slice_to_0 (s : string) : slice_to s 0 = "".
Proof. unfold slice_to. destruct s; reflexivity. Qed.

(** Cutting the last byte off [s + c] gives [s] back. *)
Lemma slice_to_drop_last (s : string) (c : ascii) :
  slice_to (s +:+ String c "") (String.length (s +:+ String c "") - 1) = s.
Proof.
  rewrite str_length_app. simpl String.length.
  replace (String.length s + 1 - 1) with (String.length s + 0) by lia.
  rewrite slice_to_app_plus, slice_to_0. apply str_app_nil_r.
Qed.

Lemma count_byte_app (c : ascii) (s t : string) :
  count_byte c (s +:+ t) = count_byte c s + count_byte c t.
Proof.
  induction s as [|a s IH]; [reflexivity |].
  rewrite str_app_cons. simpl. rewrite IH. lia.
Qed.

End StringFacts.

(** ** The loops of the splitter *)

Section Loops.
Context {A : Type}.

(** Removing the trailing separator of a non-empty loop result is joining
    with the separator. *)
Lemma drop_trailing_comma (g : A -> string) (l : list A) :
  l <> [] ->
  let s := cat ((fun x => g x +:+ ",") <$> l) in
  slice_to s (String.length s - 1) = Join (g <$> l) ",".
Proof.
  induction l as [|x l IH]; [congruence | intros _].
  destruct l as [|y l].
  - cbn [fmap list_fmap cat foldr Join String.concat].
    rewrite str_app_nil_r. apply slice_to_drop_last.
  - specialize (IH ltac:(discriminate)). cbv zeta in IH |- *.
    change (cat ((fun x => g x +:+ ",") <$> x :: y :: l))
      with ((g x +:+ ",") +:+ cat ((fun x => g x +:+ ",") <$> y :: l)).
    set (t := cat ((fun x => g x +:+ ",") <$> y :: l)) in *.
    assert (Ht : 1 <= String.length t).
    { subst t. cbn. rewrite !str_length_app. simpl. lia. }
    rewrite str_length_app.
    replace (String.length (g x +:+ ",") + String.length t - 1)
      with (String.length (g x +:+ ",") + (String.length t - 1)) by lia.
    rewrite slice_to_app_plus, IH.
    change (Join (g <$> x :: y :: l) ",")
      with (g x +:+ "," +:+ Join (g <$> y :: l) ",").
    now rewrite str_app_assoc.
Qed.

Lemma cat_length_pos (g : A -> string) (l : list A) :
  l <> [] -> 0 < String.length (cat ((fun x => g x +:+ ",") <$> l)).
Proof.
  destruct l as [|x l]; [congruence | intros _].
  cbn. rewrite !str_length_app. simpl. lia.
Qed.

End Loops.

(** ** The splitter, loop by loop *)

Section Ranging.
Context {A : Type}.
Variable r : ranger.

Lemma range_length (m : gmap string A) : length (range r m) = size m.
Proof. rewrite (range_perm r A m). apply length_map_to_list. Qed.

Lemma range_nonempty (m : gmap string A) : 0 < size m -> range r m <> [].
Proof.
  intros Hsz Hnil. apply (f_equal length) in Hnil.
  rewrite range_length in Hnil. simpl in Hnil. lia.
Qed.

Lemma range_NoDup_keys (m : gmap string A) : NoDup (range r m).*1.
Proof. rewrite (range_perm r A m). apply NoDup_fst_map_to_list. Qed.

Lemma range_elem (m : gmap string A) (k : string) (v : A) :
  (k, v) ∈ range r m <-> m !! k = Some v.
Proof. rewrite (range_perm r A m). apply elem_of_map_to_list. Qed.

Lemma range_keys (m : gmap string A) (k : string) :
  k ∈ (range r m).*1 <-> is_Some (m !! k).
Proof.
  rewrite list_elem_of_fmap. split.
  - intros [[k' v] [-> Hin]]. apply range_elem in Hin. simpl. eauto.
  - intros [v Hv]. exists (k, v). split; [reflexivity | now apply range_elem].
Qed.

(** The [i]-th visited entry is an entry of the map. *)
Lemma range_lookup (m : gmap string A) (i : nat) (k : string) :
  (range r m).*1 !! i = Some k -> (range r m).*2 !! i = m !! k.
Proof.
  rewrite !list_lookup_fmap.
  destruct (range r m !! i) as [[k' v]|] eqn:Hi; simpl; [|discriminate].
  intros [= ->]. symmetry. apply range_elem.
  apply list_elem_of_lookup. eauto.
Qed.

End Ranging.

Lemma fmap_const_replicate {A B} (x : B) (l : list A) :
  (fun _ => x) <$> l = replicate (length l) x.
Proof. induction l as [|a l IH]; simpl; [reflexivity | f_equal; exact IH]. Qed.

Lemma quote_comma (k : string) : "`" +:+ k +:+ "`," = quote k +:+ ",".
Proof. unfold quote. now rewrite !str_app_assoc. Qed.

Lemma quote_assign_comma (k : string) :
  "`" +:+ k +:+ "`" +:+ "=?," = (quote k +:+ "=?") +:+ ",".
Proof. unfold quote. now rewrite !str_app_assoc. Qed.

(** The loop of [Split] from any accumulator. *)
Lemma Split_loop (l : list (string * Value)) (ps field : string) (args : list Value) :
  foldl (fun '(ps, field, args) '(k, v) =>
           (ps +:+ "?,", field +:+ ("`" +:+ k +:+ "`,"), append1 args v))
        (ps, field, mk_slice args) l
  = (ps +:+ cat ((fun _ => "?" +:+ ",") <$> l),
     field +:+ cat ((fun kv => quote kv.1 +:+ ",") <$> l),
     mk_slice (args ++ l.*2)).
Proof.
  revert ps field args. induction l as [|[k v] l IH]; intros ps field args.
  - simpl. now rewrite !str_app_nil_r, app_nil_r.
  - cbn [foldl]. unfold append1 at 2. cbn [elems]. rewrite IH.
    cbn [fmap list_fmap cat foldr fst snd].
    rewrite quote_comma, !str_app_assoc, <- app_assoc. reflexivity.
Qed.

(** The loop of [SplitWrap] from any accumulator. *)
Lemma SplitWrap_loop (l : list (string * Value)) (ps : string) (args : list Value) :
  foldl (fun '(ps, args) '(k, v) =>
           (ps +:+ ("`" +:+ k +:+ "`" +:+ "=?,"), append1 args v))
        (ps, mk_slice args) l
  = (ps +:+ cat ((fun kv => (quote kv.1 +:+ "=?") +:+ ",") <$> l),
     mk_slice (args ++ l.*2)).
Proof.
  revert ps args. induction l as [|[k v] l IH]; intros ps args.
  - simpl. now rewrite !str_app_nil_r, app_nil_r.
  - cbn [foldl]. unfold append1 at 2. cbn [elems]. rewrite IH.
    cbn [fmap list_fmap cat foldr fst snd].
    rewrite quote_assign_comma, !str_app_assoc, <- app_assoc. reflexivity.
Qed.

(** The strings [Split] and [SplitWrap] cut the last byte off are not
    empty: the slice expressions never go out of range. *)
Lemma Split_cuts_in_range (r : ranger) (kv : KeyValue) :
  0 < size kv ->
  (let '(ps, field, _) :=
     foldl (fun '(ps, field, args) '(k, v) =>
              (ps +:+ "?,", field +:+ ("`" +:+ k +:+ "`,"), append1 args v))
           ("", "", make_slice (size kv)) (range r kv) in
   1 <= String.length field /\ 1 <= String.length ps)
  /\ (let '(ps, _) :=
        foldl (fun '(ps, args) '(k, v) =>
                 (ps +:+ ("`" +:+ k +:+ "`" +:+ "=?,"), append1 args v))
              ("", make_slice (size kv)) (range r kv) in
      1 <= String.length ps).
Proof.
  intros Hsz. pose proof (range_nonempty r kv Hsz) as Hne.
  unfold make_slice. rewrite Split_loop, SplitWrap_loop.
  rewrite !str_app_nil_l. repeat split.
  - apply (cat_length_pos (fun kv : string * Value => quote kv.1) _ Hne).
  - apply (cat_length_pos (fun _ : string * Value => "?") _ Hne).
  - apply (cat_length_pos (fun kv : string * Value => quote kv.1 +:+ "=?") _ Hne).
Qed.

(** ** What the splitter returns *)

Section SplitterSpec.
Variable r : ranger.

Lemma size_eqb_pos (kv : KeyValue) : 0 < size kv -> Nat.eqb (size kv) 0 = false.
Proof. intros H. apply Nat.eqb_neq. lia. Qed.

(** On a non-empty map [Split] joins the quoted keys and as many [?] with
    commas, in the order the loop visited them. *)
Lemma Split_nonempty (kv : KeyValue) :
  0 < size kv ->
  Split r kv
  = (Join (quote <$> (range r kv).*1) ",",
     Join (replicate (length (range r kv)) "?") ",",
     mk_slice (range r kv).*2).
Proof.
  intros Hsz. unfold Split. rewrite (size_eqb_pos kv Hsz).
  unfold make_slice. rewrite Split_loop. rewrite !str_app_nil_l, app_nil_l.
  pose proof (range_nonempty r kv Hsz) as Hne.
  pose proof (drop_trailing_comma (fun _ : string * Value => "?") _ Hne) as Hps.
  pose proof (drop_trailing_comma (fun kv : string * Value => quote kv.1) _ Hne) as Hf.
  cbv zeta in Hps, Hf. rewrite Hps, Hf.
  rewrite fmap_const_replicate, <- list_fmap_compose. reflexivity.
Qed.

(** Likewise [SplitWrap] joins the clauses [`k`=?]. *)
Lemma SplitWrap_nonempty (kv : KeyValue) :
  0 < size kv ->
  SplitWrap r kv
  = (Join (clause <$> (range r kv).*1) ",", mk_slice (range r kv).*2).
Proof.
  intros Hsz. unfold SplitWrap. rewrite (size_eqb_pos kv Hsz).
  unfold make_slice. rewrite SplitWrap_loop. rewrite !str_app_nil_l, app_nil_l.
  pose proof (range_nonempty r kv Hsz) as Hne.
  pose proof (drop_trailing_comma
                (fun kv : string * Value => quote kv.1 +:+ "=?") _ Hne) as Hps.
  cbv zeta in Hps. rewrite Hps.
  rewrite <- list_fmap_compose. reflexivity.
Qed.

Lemma Split_empty (kv : KeyValue) :
  size kv = 0 -> Split r kv = ("", "", mk_slice []).
Proof. intros H. unfold Split. now rewrite H. Qed.

Lemma SplitWrap_empty (kv : KeyValue) :
  size kv = 0 -> SplitWrap r kv = ("", mk_slice []).
Proof. intros H. unfold SplitWrap. now rewrite H. Qed.

End SplitterSpec.

Section SplitterAny.
Variable r : ranger.

Lemma range_size_0 {A} (m : gmap string A) : size m = 0 -> range r m = [].
Proof.
  intros H. apply length_zero_iff_nil. now rewrite range_length.
Qed.

(** The two characterisations hold for the empty map as well. *)
Lemma Split_any (kv : KeyValue) :
  Split r kv
  = (Join (quote <$> (range r kv).*1) ",",
     Join (replicate (length (range r kv)) "?") ",",
     mk_slice (range r kv).*2).
Proof.
  destruct (Nat.eq_dec (size kv) 0) as [H0|Hpos].
  - rewrite (Split_empty r kv H0), (range_size_0 kv H0). reflexivity.
  - apply Split_nonempty. lia.
Qed.

Lemma SplitWrap_any (kv : KeyValue) :
  SplitWrap r kv
  = (Join (clause <$> (range r kv).*1) ",", mk_slice (range r kv).*2).
Proof.
  destruct (Nat.eq_dec (size kv) 0) as [H0|Hpos].
  - rewrite (SplitWrap_empty r kv H0), (range_size_0 kv H0). reflexivity.
  - apply SplitWrap_nonempty. lia.
Qed.


End SplitterAny.

(** A comma-joined run of [n] placeholders holds [n] question marks. *)
Lemma count_placeholders (n : nat) :
  count_byte "?" (Join (replicate n "?") ",") = n.
Proof.
  induction n as [|[|n] IH]; [reflexivity | reflexivity |].
  change (Join (replicate (S (S n)) "?") ",")
    with ("?" +:+ "," +:+ Join (replicate (S n) "?") ",").
  rewrite !count_byte_app, IH. reflexivity.
Qed.

(** ** Reading a joined string back *)










(** C9. For the empty map [Split] returns an empty field string, an empty
    placeholder string and an empty argument list that is not nil, and
    [SplitWrap] an empty assignment string and an empty argument list that
    is not nil; neither has an error to report. *)
Theorem Split_empty_map (r : ranger) :
  Split r ∅ = ("", "", mk_slice [])
  /\ SplitWrap r ∅ = ("", mk_slice [])
  /\ elems (Split r ∅).2 = [] /\ is_nil (Split r ∅).2 = false
  /\ elems (SplitWrap r ∅).2 = [] /\ is_nil (SplitWrap r ∅).2 = false.
Proof.
  assert (H0 : size (∅ : KeyValue) = 0) by apply map_size_empty.
  rewrite (Split_empty r ∅ H0), (SplitWrap_empty r ∅ H0).
  repeat split.
Qed.

(** ** Statements sent by the connection *)

Lemma elems_append {A} (s t : slice A) : elems (append s t) = elems s ++ elems t.
Proof.
  unfold append. destruct (elems t) eqn:Ht; [now rewrite app_nil_r | reflexivity].
Qed.

Lemma Sprintf_rawInsert (table fields pd : string) :
  Sprintf rawInsert [table; fields; pd]
  = "INSERT INTO " +:+ table +:+ "(" +:+ fields +:+ ")VALUES(" +:+ pd +:+ ")".
Proof. reflexivity. Qed.

Lemma Sprintf_rawUpdate (table fields where_ : string) :
  Sprintf rawUpdate [table; fields; where_]
  = "UPDATE " +:+ table +:+ " SET " +:+ fields +:+ " WHERE " +:+ where_.
Proof. cbn. now rewrite str_app_nil_r. Qed.

Lemma Sprintf_rawDelete (table where_ : string) :
  Sprintf rawDelete [table; where_] = "DELETE FROM " +:+ table +:+ " WHERE " +:+ where_.
Proof. cbn. now rewrite str_app_nil_r. Qed.

Lemma Sprintf_rawQuery (search table where_ : string) :
  Sprintf rawQuery [search; table; where_]
  = "SELECT " +:+ search +:+ " FROM " +:+ table +:+ " WHERE " +:+ where_.
Proof. cbn. now rewrite str_app_nil_r. Qed.

Section Statements.
Variable d : Driver.

Lemma execute_sent (c : Conn) (query : string) (args : slice Value) (st : State) :
  sent (execute d c query args st).2
  = sent st ++ execute_calls d st c query (elems args).
Proof.
  unfold execute, execute_calls, bind, DB_Prepare, Stmt_Exec, Stmt_Close, ret.
  cbn. destruct (prepare_err d st (db c) query); cbn.
  - reflexivity.
  - now rewrite <- !app_assoc.
Qed.

Lemma TraceExec_sent (c : Conn) (query : string) (args : slice Value) (st : State) :
  sent (TraceExec d c query args st).2
  = sent st ++ [DBExec (db c) query (elems args)].
Proof.
  unfold TraceExec, bind, DB_Exec, ret. cbn.
  destruct (db_exec d st (db c) query (elems args)) as [res|e]; cbn; [|reflexivity].
  destruct (RowsAffected res) as [n [e|]]; reflexivity.
Qed.

(** The state [Do] leaves is the state its [switch] leaves: the deferred
    function only fills in [Runtime]. *)
Lemma Do_Update_state (rv rw : ranger) (m : Meta) (conn : Conn) (st : State) :
  Op m = U ->
  (Do d rv rw m conn st).2
  = (execute d conn
       (Sprintf rawUpdate [Table m; (SplitWrap rv (Values m)).1; (SplitWrap rw (Where m)).1])
       (append (SplitWrap rv (Values m)).2 (SplitWrap rw (Where m)).2) st).2.
Proof.
  intros Hop. unfold Do. rewrite Hop.
  change (N.eqb U C) with false. change (N.eqb U U) with true. cbv iota.
  destruct (SplitWrap rv (Values m)) as [fields args].
  destruct (SplitWrap rw (Where m)) as [where_ whereArgs].
  unfold Conn_Update, bind, ret. cbn [fst snd].
  destruct (execute d conn _ _ st) as [res st1]. reflexivity.
Qed.

End Statements.

(** C2. For every Update dispatch ([Meta.Do] with [Op = U], and
    [EasyUpdate]) the argument list passed to execution is the value-map
    arguments followed by the condition-map arguments, as the placeholders
    of [SET ... WHERE ...] follow each other in the statement text. *)
Theorem Update_args_order (d : Driver) (rv rw : ranger) (m : Meta)
    (conn : Conn) (st : State) :
  Op m = U ->
  let vs := range rv (Values m) in
  let ws := range rw (Where m) in
  let query := "UPDATE " +:+ Table m +:+ " SET " +:+ Join (clause <$> vs.*1) ","
               +:+ " WHERE " +:+ Join (clause <$> ws.*1) "," in
  let args := vs.*2 ++ ws.*2 in
  sent (Do d rv rw m conn st).2 = sent st ++ execute_calls d st conn query args
  /\ sent (EasyUpdate d rv rw conn (Table m) (Values m) (Where m) st).2
     = sent st ++ (if Nat.eqb (size (Values m)) 0 || Nat.eqb (size (Where m)) 0
                   then [] else [DBExec (db conn) query args])
  /\ (forall i k, vs.*1 !! i = Some k -> args !! i = Values m !! k)
  /\ (forall i k, ws.*1 !! i = Some k -> args !! (length vs + i) = Where m !! k).
Proof.
  intros Hop vs ws query args. split; [|split; [|split]].
  - rewrite (Do_Update_state d rv rw m conn st Hop), execute_sent.
    rewrite !SplitWrap_any. cbn [fst snd].
    rewrite Sprintf_rawUpdate, elems_append. reflexivity.
  - unfold EasyUpdate.
    destruct (Nat.eqb (size (Values m)) 0 || Nat.eqb (size (Where m)) 0).
    + cbn. now rewrite app_nil_r.
    + rewrite !SplitWrap_any. unfold TraceUpdate.
      rewrite TraceExec_sent, Sprintf_rawUpdate, elems_append. reflexivity.
  - intros i k Hk. subst args.
    rewrite lookup_app_l.
    + now apply range_lookup.
    + apply lookup_lt_Some in Hk. rewrite length_fmap in Hk.
      rewrite length_fmap. exact Hk.
  - intros i k Hk. subst args.
    rewrite lookup_app_r by (rewrite length_fmap; subst vs; lia).
    replace (length vs + i - length vs.*2) with i
      by (rewrite length_fmap; lia).
    now apply range_lookup.
Qed.

Lemma Update_args_order_witness :
  sent (Do ok_driver canonical_ranger canonical_ranger profile_update conn0
          empty_State).2
  = execute_calls ok_driver empty_State conn0
      "UPDATE profile SET `first_name`=?,`last_name`=? WHERE `id`=?"
      [VStr "Tomi"; VStr "Dog"; VInt 1].
Proof.
  destruct (Update_args_order ok_driver canonical_ranger canonical_ranger
              profile_update conn0 empty_State eq_refl) as [H _].
  rewrite H. vm_compute. reflexivity.
Defined.

(** ** Create *)

Section CreateDispatch.
Variable d : Driver.

Lemma Do_Create_state (rv rw : ranger) (m : Meta) (conn : Conn) (st : State) :
  Op m = C ->
  (Do d rv rw m conn st).2
  = (execute d conn
       (Sprintf rawInsert [Table m; (Split rv (Values m)).1.1; (Split rv (Values m)).1.2])
       (Split rv (Values m)).2 st).2.
Proof.
  intros Hop. unfold Do. rewrite Hop.
  change (N.eqb C C) with true. cbv iota.
  destruct (Split rv (Values m)) as [[fields pd] args].
  unfold Conn_Create, bind, ret. cbn [fst snd].
  destruct (execute d conn _ _ st) as [res st1]. reflexivity.
Qed.

(** What a Create dispatch sends, for any table and value map. *)
Lemma Do_Create_sent (rv rw : ranger) (m : Meta) (conn : Conn) (st : State) :
  Op m = C ->
  sent (Do d rv rw m conn st).2
  = sent st ++ execute_calls d st conn
      ("INSERT INTO " +:+ Table m +:+ "("
       +:+ Join (quote <$> (range rv (Values m)).*1) ","
       +:+ ")VALUES("
       +:+ Join (replicate (length (range rv (Values m))) "?") "," +:+ ")")
      (range rv (Values m)).*2.
Proof.
  intros Hop. rewrite (Do_Create_state rv rw m conn st Hop), execute_sent.
  rewrite Split_any. cbn [fst snd elems]. now rewrite Sprintf_rawInsert.
Qed.

End CreateDispatch.

(** The two orders in which a loop can visit [kv_name]. *)
Lemma range_kv_name (r : ranger) :
  range r kv_name = [("first_name", VStr "foo"); ("last_name", VStr "bar")]
  \/ range r kv_name = [("last_name", VStr "bar"); ("first_name", VStr "foo")].
Proof.
  pose proof (range_perm r Value kv_name) as H.
  assert (Hl : map_to_list kv_name
               = [("first_name", VStr "foo"); ("last_name", VStr "bar")])
    by (vm_compute; reflexivity).
  rewrite Hl in H. symmetry in H.
  apply Permutation_length_2_inv in H. exact H.
Qed.

(** What creating the example profile sends, whatever the database answers
    and whatever order the loop takes. *)
Lemma profile_create_sent (d : Driver) (rv rw : ranger) (conn : Conn) (st : State) :
  sent (Do d rv rw profile_create conn st).2
  = sent st ++ execute_calls d st conn
      "INSERT INTO profile(`first_name`,`last_name`)VALUES(?,?)"
      [VStr "foo"; VStr "bar"]
  \/ sent (Do d rv rw profile_create conn st).2
  = sent st ++ execute_calls d st conn
      "INSERT INTO profile(`last_name`,`first_name`)VALUES(?,?)"
      [VStr "bar"; VStr "foo"].
Proof.
  rewrite (Do_Create_sent d rv rw profile_create conn st eq_refl).
  cbn [Table Values profile_create].
  destruct (range_kv_name rv) as [-> | ->]; [left | right]; reflexivity.
Qed.

Lemma execute_calls_query (d : Driver) (st : State) (c : Conn)
    (q q' : string) (a a' : list Value) :
  execute_calls d st c q a = execute_calls d st c q' a' -> q = q'.
Proof. unfold execute_calls. intros H. now injection H. Qed.

(** C3, as the specification words it: the text with a blank before
    [VALUES] is never what a Create of the example profile sends. *)
Lemma profile_create_not_spec_text :
  ~ (exists (d : Driver) (rv rw : ranger) (conn : Conn) (st : State)
            (q : string) (args : list Value),
       (q = "INSERT INTO profile(`first_name`,`last_name`) VALUES(?,?)"
        \/ q = "INSERT INTO profile(`last_name`,`first_name`) VALUES(?,?)")
       /\ sent (Do d rv rw profile_create conn st).2
          = sent st ++ execute_calls d st conn q args).
Proof.
  intros (d & rv & rw & conn & st & q & args & Hq & Hsent).
  destruct (profile_create_sent d rv rw conn st) as [H | H];
    rewrite H in Hsent; apply app_inv_head in Hsent;
    apply execute_calls_query in Hsent; subst q;
    destruct Hq as [Hq | Hq]; discriminate Hq.
Qed.

(** C3, amended.  A Create dispatch on table [profile] with the value map
    first_name = foo, last_name = bar sends the text of the template
    [INSERT INTO %s(%s)VALUES(%s)], which has no blank before [VALUES]:
    either the fields first_name, last_name with the arguments foo, bar,
    or the fields last_name, first_name with the arguments bar, foo. *)
Theorem profile_create_text (d : Driver) (rv rw : ranger) (conn : Conn) (st : State) :
  rawInsert = "INSERT INTO %s(%s)VALUES(%s)"
  /\ (sent (Do d rv rw profile_create conn st).2
      = sent st ++ execute_calls d st conn
          "INSERT INTO profile(`first_name`,`last_name`)VALUES(?,?)"
          [VStr "foo"; VStr "bar"]
      \/ sent (Do d rv rw profile_create conn st).2
      = sent st ++ execute_calls d st conn
          "INSERT INTO profile(`last_name`,`first_name`)VALUES(?,?)"
          [VStr "bar"; VStr "foo"]).
Proof. split; [reflexivity | apply profile_create_sent]. Qed.

(** ** Unknown operations *)

(** C8. For every descriptor whose kind is none of [C], [U], [R], [D],
    [Do] returns a [Done] whose error is [ErrInvalidCurd] and whose write
    result, row and rows are all nil; nothing is sent to the pool. *)
Theorem Do_invalid_operation (d : Driver) (rv rw : ranger) (m : Meta)
    (conn : Conn) (st : State) :
  Op m <> C -> Op m <> U -> Op m <> R -> Op m <> D ->
  Err (Do d rv rw m conn st).1 = Some ErrInvalidCurd
  /\ result (Do d rv rw m conn st).1 = None
  /\ row (Do d rv rw m conn st).1 = None
  /\ rows (Do d rv rw m conn st).1 = None
  /\ (Do d rv rw m conn st).2 = st.
Proof.
  intros HC HU HR HD. unfold Do.
  apply N.eqb_neq in HC, HU, HR, HD. rewrite HC, HU, HR, HD.
  cbn. repeat split.
Qed.

Lemma Do_invalid_operation_witness :
  Err (Do ok_driver canonical_ranger canonical_ranger profile_bogus conn0
         empty_State).1 = Some ErrInvalidCurd
  /\ result (Do ok_driver canonical_ranger canonical_ranger profile_bogus conn0
               empty_State).1 = None
  /\ row (Do ok_driver canonical_ranger canonical_ranger profile_bogus conn0
            empty_State).1 = None
  /\ rows (Do ok_driver canonical_ranger canonical_ranger profile_bogus conn0
             empty_State).1 = None
  /\ (Do ok_driver canonical_ranger canonical_ranger profile_bogus conn0
        empty_State).2 = empty_State.
Proof.
  apply (Do_invalid_operation ok_driver canonical_ranger canonical_ranger
           profile_bogus conn0 empty_State); vm_compute; discriminate.
Defined.

(** ** Empty maps and unquoted projections *)

Lemma range_singleton {A} (r : ranger) (k : string) (v : A) :
  range r (<[k := v]> ∅) = [(k, v)].
Proof.
  pose proof (range_perm r A (<[k := v]> ∅)) as H.
  rewrite insert_empty, map_to_list_singleton in H.
  symmetry in H. now apply Permutation_length_1_inv in H.
Qed.

Lemma range_empty {A} (r : ranger) : range r (∅ : gmap string A) = [].
Proof. apply range_size_0, map_size_empty. Qed.

Section OtherDispatches.
Variable d : Driver.

Lemma Do_Delete_state (rv rw : ranger) (m : Meta) (conn : Conn) (st : State) :
  Op m = D ->
  (Do d rv rw m conn st).2
  = (execute d conn (Sprintf rawDelete [Table m; (SplitWrap rw (Where m)).1])
       (SplitWrap rw (Where m)).2 st).2.
Proof.
  intros Hop. unfold Do. rewrite Hop.
  change (N.eqb D C) with false. change (N.eqb D U) with false.
  change (N.eqb D R) with false. change (N.eqb D D) with true. cbv iota.
  destruct (SplitWrap rw (Where m)) as [field args].
  unfold Conn_Delete, bind, ret. cbn [fst snd].
  destruct (execute d conn _ _ st) as [res st1]. reflexivity.
Qed.

Lemma Do_Delete_sent (rv rw : ranger) (m : Meta) (conn : Conn) (st : State) :
  Op m = D ->
  sent (Do d rv rw m conn st).2
  = sent st ++ execute_calls d st conn
      ("DELETE FROM " +:+ Table m +:+ " WHERE "
       +:+ Join (clause <$> (range rw (Where m)).*1) ",")
      (range rw (Where m)).*2.
Proof.
  intros Hop. rewrite (Do_Delete_state rv rw m conn st Hop), execute_sent.
  rewrite SplitWrap_any. cbn [fst snd elems]. now rewrite Sprintf_rawDelete.
Qed.

(** A single-row Read sends one [QueryRow] whose projection is the field
    list joined with commas as it stands, or [*]. *)
Lemma Do_Read_row_sent (rv rw : ranger) (m : Meta) (conn : Conn) (st : State) :
  Op m = R -> Batch (Meta_Query m) = false ->
  sent (Do d rv rw m conn st).2
  = sent st ++ [DBQueryRow (db conn)
      ("SELECT "
       +:+ (if Nat.ltb 0 (length (Fields (Meta_Query m)))
            then Join (Fields (Meta_Query m)) "," else "*")
       +:+ " FROM " +:+ Table m +:+ " WHERE "
       +:+ Join (clause <$> (range rw (Where m)).*1) ",")
      (range rw (Where m)).*2].
Proof.
  intros Hop Hb. unfold Do. rewrite Hop, Hb.
  change (N.eqb R C) with false. change (N.eqb R U) with false.
  change (N.eqb R R) with true. cbv iota.
  rewrite SplitWrap_any, Sprintf_rawQuery.
  unfold Conn_QueryRow, DB_QueryRow, bind, ret. reflexivity.
Qed.

Lemma EasySelect_sent (r : ranger) (c : Conn) (table : string)
    (fields : list string) (where_ : KeyValue) (st : State) :
  0 < length fields -> 0 < size where_ ->
  sent (EasySelect d r c table fields where_ st).2
  = sent st ++ [DBQueryRow (db c)
      ("SELECT " +:+ Fields_Join fields +:+ " FROM " +:+ table +:+ " WHERE "
       +:+ Join (clause <$> (range r where_).*1) ",")
      (range r where_).*2].
Proof.
  intros Hf Hw. unfold EasySelect.
  destruct (length fields) as [|n] eqn:Hn; [lia|].
  rewrite (size_eqb_pos where_ Hw). cbn [Nat.eqb orb].
  rewrite SplitWrap_any, Sprintf_rawQuery.
  unfold TraceSelect, DB_QueryRow. reflexivity.
Qed.

End OtherDispatches.

(** C6, on the code.  [Meta.Do] has no guard for empty maps: a Create with
    an empty value map and a Delete with an empty condition map are sent to
    the pool as they are, and the error of the result is whatever the
    database answers, none when it accepts the statement.  [EasyInsert] and
    [EasyDelete] return an error of their own and send nothing. *)
Theorem Do_empty_map_proceeds (d : Driver) (rv rw : ranger) (conn : Conn) (st : State) :
  sent (Do d rv rw profile_create_nothing conn st).2
  = sent st ++ execute_calls d st conn "INSERT INTO profile()VALUES()" []
  /\ sent (Do d rv rw profile_delete_nothing conn st).2
     = sent st ++ execute_calls d st conn "DELETE FROM profile WHERE " []
  /\ Err (Do ok_driver rv rw profile_create_nothing conn st).1 = None
  /\ EasyInsert d rv conn "profile" ∅ st
     = (inr (errors_New "invalid insert values"), st)
  /\ EasyDelete d rw conn "profile" ∅ st
     = (inr (errors_New "invalid delete condition"), st).
Proof.
  split; [|split; [|split; [|split]]].
  - rewrite (Do_Create_sent d rv rw profile_create_nothing conn st eq_refl).
    cbn [Table Values profile_create_nothing]. now rewrite range_empty.
  - rewrite (Do_Delete_sent d rv rw profile_delete_nothing conn st eq_refl).
    cbn [Table Where profile_delete_nothing]. now rewrite range_empty.
  - unfold Do. cbn [Op Values profile_create_nothing].
    change (N.eqb C C) with true. cbv iota.
    rewrite (Split_empty rv ∅ map_size_empty). reflexivity.
  - reflexivity.
  - reflexivity.
Qed.

(** C7, on the code.  A Read dispatch joins an explicit field list with
    commas and nothing else, so the projection reaches the statement
    without back quotes; [EasySelect] builds the same query through
    [Fields.Join] and quotes every field. *)
Theorem Read_projection_unquoted (d : Driver) (rv rw : ranger) (conn : Conn)
    (st : State) :
  sent (Do d rv rw profile_query conn st).2
  = sent st ++ [DBQueryRow (db conn)
      "SELECT first_name,last_name FROM profile WHERE `id`=?" [VInt 1]]
  /\ sent (EasySelect d rw conn "profile" ["first_name"; "last_name"]
             (kv_id 1) st).2
     = sent st ++ [DBQueryRow (db conn)
      "SELECT `first_name`,`last_name` FROM profile WHERE `id`=?" [VInt 1]].
Proof.
  split.
  - rewrite (Do_Read_row_sent d rv rw profile_query conn st eq_refl eq_refl).
    cbn [Table Where Meta_Query Fields profile_query].
    unfold kv_id. rewrite range_singleton. reflexivity.
  - rewrite EasySelect_sent.
    + unfold kv_id. rewrite range_singleton. reflexivity.
    + cbn. lia.
    + unfold kv_id. rewrite insert_empty, map_size_singleton. lia.
Qed.

(** ** The registry *)

Section Registry.
Variable d : Driver.

(** The sweep closes the pools it visits and touches nothing else. *)
Lemma close_loop_state (l : list (string * nat)) (st : State) :
  close_loop d l st = (tt, after_closing l.*2 st).
Proof.
  revert st. induction l as [|[s h] l IH]; intros st.
  - unfold after_closing. cbn. unfold ret. destruct st as [p o c t]. cbn.
    now rewrite (left_id_L ∅ (∪)).
  - cbn [close_loop]. unfold Close, DB_Close, bind, ret. cbn beta iota.
    rewrite IH. unfold after_closing, close_pool. cbn.
    now rewrite (assoc_L (∪)), (comm_L (∪) (list_to_set l.*2)).
Qed.

Lemma UnregisterDB_state (r : ranger) (st : State) :
  UnregisterDB d r st = (tt, after_closing (range r (pool st)).*2 st).
Proof. unfold UnregisterDB. apply close_loop_state. Qed.

Lemma range_values {A} (r : ranger) (m : gmap string A) (v : A) :
  v ∈ (range r m).*2 <-> exists k, m !! k = Some v.
Proof.
  rewrite list_elem_of_fmap. split.
  - intros [[k v'] [-> Hin]]. exists k. now apply range_elem in Hin.
  - intros [k Hk]. exists (k, v). split; [reflexivity | now apply range_elem].
Qed.

(** Closing the same pools again changes nothing. *)
Lemma after_closing_twice (l l' : list nat) (st : State) :
  (forall h, h ∈ l' -> h ∈ l) ->
  after_closing l' (after_closing l st) = after_closing l st.
Proof.
  intros Hsub. unfold after_closing. cbn. f_equal.
  apply set_eq. intros h. rewrite !elem_of_union, !elem_of_list_to_set.
  split; [intros [H | H]; [left; now apply Hsub | exact H] | tauto].
Qed.

End Registry.

Lemma String_eqb_nonempty (name : string) : name <> "" -> String.eqb name "" = false.
Proof. intros H. now apply String.eqb_neq. Qed.

(** C4, as the specification words it: after the example configuration is
    registered and [UnregisterDB] has run, looking [game] up still returns
    a connection and no error, although its pool is closed. *)
Lemma UnregisterDB_lookup_succeeds :
  let st := (RegisterDB ok_driver canonical_ranger configs empty_State).2 in
  let st' := (UnregisterDB ok_driver canonical_ranger st).2 in
  pool st !! "game" = Some 0
  /\ 0 ∈ closed st'
  /\ (Get "game" st').1 = (Some {| db := 0 |}, None)
  /\ (Get "game" st').1 <> (None, Some ErrUnregister)
  /\ pool st' = pool st.
Proof.
  cbv zeta. split; [vm_compute; reflexivity|].
  split; [rewrite UnregisterDB_state; cbn [snd after_closing closed];
          apply elem_of_union_l, elem_of_list_to_set, range_values;
          exists "game"; vm_compute; reflexivity|].
  split; [vm_compute; reflexivity|].
  split; [vm_compute; discriminate|].
  rewrite UnregisterDB_state. reflexivity.
Qed.

(** C4, amended.  [UnregisterDB] and [CloseAll] are the same sweep: it
    calls [Close] on every pool of the registry and discards what [Close]
    returns, so it has no error to report; every pool of the registry is
    closed afterwards, and running the sweep again changes nothing.  The
    sweep only closes: the registry mapping is left as it was, and looking
    up a registered name afterwards returns a connection on its pool. *)
Theorem UnregisterDB_closes_only (d : Driver) (r r' : ranger) (st : State) :
  CloseAll d r st = UnregisterDB d r st
  /\ (forall name p, pool st !! name = Some p ->
        p ∈ closed (UnregisterDB d r st).2)
  /\ pool (UnregisterDB d r st).2 = pool st
  /\ UnregisterDB d r' (UnregisterDB d r st).2 = (tt, (UnregisterDB d r st).2)
  /\ (forall name p, name <> "" -> pool st !! name = Some p ->
        Get name (UnregisterDB d r st).2
        = ((Some {| db := p |}, None), (UnregisterDB d r st).2)).
Proof.
  rewrite !UnregisterDB_state. cbn [snd].
  split; [reflexivity|]. split; [|split; [reflexivity|split]].
  - intros name p Hp. cbn [after_closing closed].
    apply elem_of_union_l, elem_of_list_to_set, range_values. eauto.
  - f_equal. apply after_closing_twice. cbn [after_closing pool]. intros h Hh.
    apply range_values in Hh. now apply range_values.
  - intros name p Hne Hp. unfold Get.
    rewrite (String_eqb_nonempty name Hne). cbn [after_closing pool].
    now rewrite Hp.
Qed.

(** ** Registration *)

Section Registration.
Variable d : Driver.

Lemma after_registering_opened (l : list (string * Config)) (st : State) :
  opened (after_registering l st) = opened st + length l.
Proof.
  revert st. induction l as [|[s c] l IH]; intros st; cbn.
  - lia.
  - rewrite IH. cbn. lia.
Qed.

(** A name the loop did not visit keeps its entry. *)
Lemma after_registering_other (l : list (string * Config)) (st : State) (k : string) :
  k ∉ l.*1 -> pool (after_registering l st) !! k = pool st !! k.
Proof.
  revert st. induction l as [|[s c] l IH]; intros st Hk; cbn; [reflexivity|].
  cbn in Hk. apply not_elem_of_cons in Hk as [Hks Hk].
  rewrite IH by exact Hk. cbn. now rewrite lookup_insert_ne.
Qed.

(** The [i]-th visited name holds the [i]-th pool opened by the loop. *)
Lemma after_registering_lookup (l : list (string * Config)) (st : State)
    (i : nat) (k : string) (c : Config) :
  NoDup l.*1 -> l !! i = Some (k, c) ->
  pool (after_registering l st) !! k = Some (opened st + i).
Proof.
  revert st i. induction l as [|[s c0] l IH]; intros st i Hnd Hi; [discriminate|].
  cbn in Hnd. apply NoDup_cons in Hnd as [Hs Hnd].
  destruct i as [|i]; cbn in Hi.
  - injection Hi as -> ->. cbn [after_registering].
    rewrite after_registering_other by exact Hs.
    cbn. rewrite lookup_insert_eq. f_equal. lia.
  - cbn [after_registering]. rewrite (IH _ i Hnd Hi). cbn. f_equal. lia.
Qed.

(** When every pool opens and answers, the loop registers every entry. *)
Lemma register_loop_ok (l : list (string * Config)) (st : State) :
  (forall st c, open_err d st c = None) ->
  (forall st h, ping_err d st h = None) ->
  register_loop d l st = (None, after_registering l st).
Proof.
  intros Hopen Hping. revert st.
  induction l as [|[s c] l IH]; intros st; [reflexivity|].
  cbn [register_loop after_registering].
  unfold Open, sql_Open, DB_Ping, bind, ret. cbn beta iota.
  rewrite Hopen. cbn beta iota. rewrite Hping. apply IH.
Qed.

(** When the loop returns an error, it stopped at an entry that failed,
    and the registry holds what the entries before it stored. *)
Lemma register_loop_err (l : list (string * Config)) (st st' : State) (e : error) :
  register_loop d l st = (Some e, st') ->
  exists l1 n c l2,
    l = l1 ++ (n, c) :: l2
    /\ entry_fails d (after_registering l1 st) c e
    /\ pool st' = pool (after_registering l1 st).
Proof.
  revert st. induction l as [|[s c] l IH]; intros st H; [discriminate|].
  cbn [register_loop] in H.
  unfold Open, sql_Open, DB_Ping, bind, ret in H. cbn beta iota in H.
  destruct (open_err d st c) as [e0|] eqn:Ho; cbn beta iota in H.
  - injection H as -> <-. exists [], s, c, l. repeat split. now left.
  - destruct (ping_err d (alloc_pool st) (opened st)) as [e0|] eqn:Hp.
    + injection H as -> <-. exists [], s, c, l. repeat split. now right.
    + apply IH in H as (l1 & n & c' & l2 & -> & Hf & Hpool).
      exists ((s, c) :: l1), n, c', l2. repeat split; assumption.
Qed.

End Registration.

(** [New] is [RegisterDB] behind the validation of the configurations. *)
Lemma New_valid (d : Driver) (rv r : ranger) (cfgs : gmap string Config) (st : State) :
  ConfigMap_Validate rv cfgs = true -> New d rv r cfgs st = RegisterDB d r cfgs st.
Proof. intros H. unfold New, RegisterDB. now rewrite H. Qed.

(** C10. Registration is not atomic: when [RegisterDB], or [New] on
    configurations that pass validation, returns an error, the loop stopped
    at an entry whose pool could not be opened or reached, and every entry
    visited before it is stored in the registry with the pool opened for
    it; nothing is rolled back. *)
Theorem RegisterDB_not_atomic (d : Driver) (rv r : ranger)
    (cfgs : gmap string Config) (st : State) (e : error) :
  (RegisterDB d r cfgs st).1 = Some e ->
  (ConfigMap_Validate rv cfgs = true -> New d rv r cfgs st = RegisterDB d r cfgs st)
  /\ exists l1 n c l2,
       range r cfgs = l1 ++ (n, c) :: l2
       /\ entry_fails d (after_registering l1 st) c e
       /\ pool (RegisterDB d r cfgs st).2 = pool (after_registering l1 st)
       /\ forall i k c', l1 !! i = Some (k, c') ->
            pool (RegisterDB d r cfgs st).2 !! k = Some (opened st + i).
Proof.
  intros Herr. split; [apply New_valid|].
  unfold RegisterDB in *.
  destruct (register_loop d (range r cfgs) st) as [err st'] eqn:Hloop.
  cbn [fst snd] in *. subst err.
  destruct (register_loop_err d _ _ _ _ Hloop) as (l1 & n & c & l2 & Hl & Hf & Hpool).
  exists l1, n, c, l2. repeat split; try assumption.
  intros i k c' Hi. rewrite Hpool.
  apply (after_registering_lookup l1 st i k c'); [|exact Hi].
  pose proof (range_NoDup_keys r cfgs) as Hnd.
  rewrite Hl, fmap_app in Hnd. now apply NoDup_app in Hnd as [Hnd _].
Qed.

Lemma RegisterDB_not_atomic_witness :
  (ConfigMap_Validate canonical_ranger configs = true ->
   New second_unreachable canonical_ranger canonical_ranger configs empty_State
   = RegisterDB second_unreachable canonical_ranger configs empty_State)
  /\ exists l1 n c l2,
       range canonical_ranger configs = l1 ++ (n, c) :: l2
       /\ entry_fails second_unreachable (after_registering l1 empty_State) c
            (sql_error "dial tcp: connection refused")
       /\ pool (RegisterDB second_unreachable canonical_ranger configs
                  empty_State).2
          = pool (after_registering l1 empty_State)
       /\ forall i k c', l1 !! i = Some (k, c') ->
            pool (RegisterDB second_unreachable canonical_ranger configs
                    empty_State).2 !! k = Some (opened empty_State + i).
Proof.
  apply (RegisterDB_not_atomic second_unreachable canonical_ranger
           canonical_ranger configs empty_State
           (sql_error "dial tcp: connection refused")).
  vm_compute. reflexivity.
Defined.

(** The first entry of the example configuration stays registered when
    the second pool cannot be reached. *)
Example RegisterDB_partial :
  (RegisterDB second_unreachable canonical_ranger configs empty_State).1
  = Some (sql_error "dial tcp: connection refused")
  /\ pool (RegisterDB second_unreachable canonical_ranger configs empty_State).2
       !! "game" = Some 0
  /\ pool (RegisterDB second_unreachable canonical_ranger configs empty_State).2
       !! "log" = None.
Proof. repeat split; vm_compute; reflexivity. Qed.

(** C5, as the specification words it: with [game] already registered,
    registering the example configuration again returns no error and
    stores another pool under [game]. *)
Lemma RegisterDB_duplicate_accepted :
  let st := (RegisterDB ok_driver canonical_ranger configs empty_State).2 in
  pool st !! "game" = Some 0
  /\ (RegisterDB ok_driver canonical_ranger configs st).1 = None
  /\ pool (RegisterDB ok_driver canonical_ranger configs st).2 !! "game" = Some 2.
Proof. cbv zeta. repeat split; vm_compute; reflexivity. Qed.

(** * Further properties of the package *)

(** ** Registration, step by step *)

Section RegistrationRuns.
Variable d : Driver.

(** How the registration loop ends: with every entry registered, or at the
    first entry whose pool cannot be opened (nothing more happens) or cannot
    be reached (the pool stays opened). *)
Lemma register_loop_result (l : list (string * Config)) (st st' : State)
    (err : option error) :
  register_loop d l st = (err, st') ->
  (err = None /\ st' = after_registering l st)
  \/ exists e l1 n c l2,
       err = Some e /\ l = l1 ++ (n, c) :: l2
       /\ ((open_err d (after_registering l1 st) c = Some e
            /\ st' = after_registering l1 st)
           \/ (open_err d (after_registering l1 st) c = None
               /\ ping_err d (alloc_pool (after_registering l1 st))
                    (opened (after_registering l1 st)) = Some e
               /\ st' = alloc_pool (after_registering l1 st))).
Proof.
  revert st. induction l as [|[s c] l IH]; intros st H.
  - cbn in H. injection H as <- <-. now left.
  - cbn [register_loop] in H.
    unfold Open, sql_Open, DB_Ping, bind, ret in H. cbn beta iota in H.
    destruct (open_err d st c) as [e0|] eqn:Ho; cbn beta iota in H.
    + injection H as <- <-. right. exists e0, [], s, c, l.
      repeat split. now left.
    + destruct (ping_err d (alloc_pool st) (opened st)) as [e0|] eqn:Hp.
      * injection H as <- <-. right. exists e0, [], s, c, l.
        repeat split. right. now repeat split.
      * apply IH in H as [[-> ->] | (e & l1 & n & c' & l2 & -> & -> & Hcase)].
        -- now left.
        -- right. exists e, ((s, c) :: l1), n, c', l2. now repeat split.
Qed.

Lemma after_registering_frame (l : list (string * Config)) (st : State) :
  closed (after_registering l st) = closed st
  /\ sent (after_registering l st) = sent st.
Proof.
  revert st. induction l as [|[s c] l IH]; intros st; [now split|].
  cbn [after_registering]. destruct (IH (set_pool (insert s (opened st)) (alloc_pool st)))
    as [-> ->]. now split.
Qed.

Lemma registry_ok_alloc (st : State) : registry_ok st -> registry_ok (alloc_pool st).
Proof.
  intros (Hb & Hi & Hc). repeat split; cbn.
  - intros n p Hp. apply Hb in Hp. lia.
  - exact Hi.
  - intros p Hp. apply Hc in Hp. lia.
Qed.

Lemma registry_ok_store (st : State) (s : string) :
  registry_ok st ->
  registry_ok (set_pool (insert s (opened st)) (alloc_pool st)).
Proof.
  intros (Hb & Hi & Hc). repeat split; cbn.
  - intros n p. rewrite lookup_insert. case_decide.
    + intros [= <-]. lia.
    + intros Hp. apply Hb in Hp. lia.
  - intros n n' p. rewrite !lookup_insert. repeat case_decide; subst.
    + reflexivity.
    + intros [= <-] Hp. apply Hb in Hp. lia.
    + intros Hp [= <-]. apply Hb in Hp. lia.
    + apply Hi.
  - intros p Hp. apply Hc in Hp. lia.
Qed.

Lemma registry_ok_after_registering (l : list (string * Config)) (st : State) :
  registry_ok st -> registry_ok (after_registering l st).
Proof.
  revert st. induction l as [|[s c] l IH]; intros st Hok; [exact Hok|].
  cbn [after_registering]. now apply IH, registry_ok_store.
Qed.

Lemma registry_ok_register_loop (l : list (string * Config)) (st : State) :
  registry_ok st -> registry_ok (register_loop d l st).2.
Proof.
  intros Hok. destruct (register_loop d l st) as [err st'] eqn:H.
  apply register_loop_result in H
    as [[_ ->] | (e & l1 & n & c & l2 & _ & _ & [[_ ->] | (_ & _ & ->)])]; cbn [snd].
  - now apply registry_ok_after_registering.
  - now apply registry_ok_after_registering.
  - now apply registry_ok_alloc, registry_ok_after_registering.
Qed.

Lemma registry_ok_after_closing (l : list nat) (st : State) :
  registry_ok st -> (forall p, p ∈ l -> p < opened st) ->
  registry_ok (after_closing l st).
Proof.
  intros (Hb & Hi & Hc) Hl. repeat split; cbn; [exact Hb | exact Hi |].
  intros p. rewrite elem_of_union, elem_of_list_to_set. intros [Hp | Hp]; auto.
Qed.

End RegistrationRuns.

Lemma registry_ok_empty : registry_ok empty_State.
Proof.
  repeat split; cbn.
  - intros n p H. rewrite lookup_empty in H. discriminate.
  - intros n n' p H. rewrite lookup_empty in H. discriminate.
  - intros p H. set_solver.
Qed.

(** ** Registering and looking up *)

Lemma Get_found (name : string) (p : nat) (st : State) :
  name <> "" -> pool st !! name = Some p ->
  Get name st = ((Some {| db := p |}, None), st).
Proof.
  intros Hne Hp. unfold Get. rewrite (String_eqb_nonempty name Hne).
  now rewrite Hp.
Qed.

Lemma RegisterDB_None (d : Driver) (r : ranger) (cfgs : gmap string Config)
    (st : State) :
  (RegisterDB d r cfgs st).1 = None ->
  (RegisterDB d r cfgs st).2 = after_registering (range r cfgs) st.
Proof.
  unfold RegisterDB. destruct (register_loop d (range r cfgs) st) as [err st'] eqn:H.
  cbn [fst snd]. intros ->.
  apply register_loop_result in H as [[_ ->] | (e & ? & ? & ? & ? & He & _)];
    [reflexivity | discriminate].
Qed.

(** The loop returns no error exactly when every entry succeeds in its
    turn. *)
Lemma register_loop_None_iff (d : Driver) (l : list (string * Config)) (st : State) :
  (register_loop d l st).1 = None <-> registrations_succeed d l st.
Proof.
  revert st. induction l as [|[s c] l IH]; intros st.
  - split; [|reflexivity]. intros _ l1 k c l2 H. now destruct l1.
  - cbn [register_loop].
    unfold Open, sql_Open, DB_Ping, bind, ret. cbn beta iota.
    destruct (open_err d st c) as [e|] eqn:Ho; cbn beta iota.
    { split; [discriminate|]. intros H.
      destruct (H [] s c l eq_refl) as [Ho' _]. cbn in Ho'. congruence. }
    destruct (ping_err d (alloc_pool st) (opened st)) as [e|] eqn:Hp.
    { split; [discriminate|]. intros H.
      destruct (H [] s c l eq_refl) as [_ Hp']. cbn in Hp'. congruence. }
    rewrite IH. split.
    + intros H l1 k c0 l2 Hl. destruct l1 as [|[s' c'] l1].
      * injection Hl as <- <- <-. now split.
      * injection Hl as <- <- ->. cbn [after_registering]. now apply (H l1 k c0 l2).
    + intros H l1 k c0 l2 Hl.
      apply (H ((s, c) :: l1) k c0 l2). now rewrite Hl.
Qed.

(** C5, amended.  Only [ConfigMap.Set] rejects a duplicate name: on a name
    the configuration map already holds it returns an error and leaves the
    map as it was.  The registry has no such check: [RegisterDB] returns no
    error exactly when every pool of the call opens and answers the ping,
    and then, for a name that was already registered, the stored pool is
    replaced by the one just opened; [New] does the same on configurations
    that pass validation. *)
Theorem RegisterDB_overwrites (d : Driver) (rv r : ranger)
    (cfgs : gmap string Config) (st : State) (n : string) (c : Config) (p : nat) :
  cfgs !! n = Some c ->
  pool st !! n = Some p ->
  p < opened st ->
  ((RegisterDB d r cfgs st).1 = None
   <-> registrations_succeed d (range r cfgs) st)
  /\ ((RegisterDB d r cfgs st).1 = None ->
      exists p', pool (RegisterDB d r cfgs st).2 !! n = Some p'
                 /\ opened st <= p' /\ p' <> p)
  /\ (ConfigMap_Validate rv cfgs = true ->
      New d rv r cfgs st = RegisterDB d r cfgs st)
  /\ (forall c', ConfigMap_Set (Some cfgs) n c'
                 = returned (Some (errors_New "exists connection config"), cfgs)).
Proof.
  intros Hn Hp Hlt. split; [apply register_loop_None_iff|]. split; [|split].
  - intros Hnone. rewrite (RegisterDB_None d r cfgs st Hnone).
    assert (Hin : (n, c) ∈ range r cfgs) by now apply range_elem.
    apply list_elem_of_lookup in Hin as [i Hi].
    exists (opened st + i).
    rewrite (after_registering_lookup _ st i n c (range_NoDup_keys r cfgs) Hi).
    repeat split; lia.
  - apply New_valid.
  - intros c'. unfold ConfigMap_Set. now rewrite Hn.
Qed.

Lemma RegisterDB_overwrites_witness :
  ((RegisterDB second_unreachable canonical_ranger (<["game" := game_Config]> ∅)
      (RegisterDB second_unreachable canonical_ranger configs empty_State).2).1
   = None
   <-> registrations_succeed second_unreachable
         (range canonical_ranger (<["game" := game_Config]> ∅))
         (RegisterDB second_unreachable canonical_ranger configs empty_State).2)
  /\ ((RegisterDB second_unreachable canonical_ranger
         (<["game" := game_Config]> ∅)
         (RegisterDB second_unreachable canonical_ranger configs
            empty_State).2).1 = None ->
      exists p',
        pool (RegisterDB second_unreachable canonical_ranger
                (<["game" := game_Config]> ∅)
                (RegisterDB second_unreachable canonical_ranger configs
                   empty_State).2).2 !! "game" = Some p'
        /\ opened (RegisterDB second_unreachable canonical_ranger configs
                     empty_State).2 <= p'
        /\ p' <> 0)
  /\ (ConfigMap_Validate canonical_ranger (<["game" := game_Config]> ∅) = true ->
      New second_unreachable canonical_ranger canonical_ranger
        (<["game" := game_Config]> ∅)
        (RegisterDB second_unreachable canonical_ranger configs empty_State).2
      = RegisterDB second_unreachable canonical_ranger
          (<["game" := game_Config]> ∅)
          (RegisterDB second_unreachable canonical_ranger configs empty_State).2)
  /\ (forall c', ConfigMap_Set (Some (<["game" := game_Config]> ∅)) "game" c'
                 = returned (Some (errors_New "exists connection config"),
                             <["game" := game_Config]> ∅)).
Proof.
  apply (RegisterDB_overwrites second_unreachable canonical_ranger
           canonical_ranger (<["game" := game_Config]> ∅)
           (RegisterDB second_unreachable canonical_ranger configs empty_State).2
           "game" game_Config 0).
  - vm_compute. reflexivity.
  - vm_compute. reflexivity.
  - vm_compute. lia.
Defined.

(** On the database whose second pool cannot be reached, [game] is
    registered on the first pool, and registering it again succeeds and
    stores the third. *)
Example RegisterDB_overwrites_unreachable :
  pool (RegisterDB second_unreachable canonical_ranger configs empty_State).2
    !! "game" = Some 0
  /\ RegisterDB second_unreachable canonical_ranger (<["game" := game_Config]> ∅)
       (RegisterDB second_unreachable canonical_ranger configs empty_State).2
     = (None,
        {| pool := <["game" := 2]> ∅; opened := 3; closed := ∅; sent := [] |}).
Proof. split; vm_compute; reflexivity. Qed.

(** X1. When [RegisterDB] returns no error, every non-empty name of the
    configuration map is found by [Get], on a pool opened by this call; two
    names of the map never get the same pool; and a name that is not in the
    map is looked up as before the call. *)
Theorem RegisterDB_then_Get (d : Driver) (r : ranger)
    (cfgs : gmap string Config) (st : State) :
  (RegisterDB d r cfgs st).1 = None ->
  (forall n c, n <> "" -> cfgs !! n = Some c ->
     exists p, Get n (RegisterDB d r cfgs st).2
               = ((Some {| db := p |}, None), (RegisterDB d r cfgs st).2)
               /\ opened st <= p < opened (RegisterDB d r cfgs st).2)
  /\ (forall n n' p, is_Some (cfgs !! n) -> is_Some (cfgs !! n') ->
        pool (RegisterDB d r cfgs st).2 !! n = Some p ->
        pool (RegisterDB d r cfgs st).2 !! n' = Some p -> n = n')
  /\ (forall n, cfgs !! n = None ->
        (Get n (RegisterDB d r cfgs st).2).1 = (Get n st).1).
Proof.
  intros Hnone. rewrite (RegisterDB_None d r cfgs st Hnone).
  pose proof (range_NoDup_keys r cfgs) as Hnd.
  assert (Hidx : forall n c, cfgs !! n = Some c ->
            exists i, range r cfgs !! i = Some (n, c)
                      /\ pool (after_registering (range r cfgs) st) !! n
                         = Some (opened st + i)).
  { intros n c Hn. assert (Hin : (n, c) ∈ range r cfgs) by now apply range_elem.
    apply list_elem_of_lookup in Hin as [i Hi]. exists i. split; [exact Hi|].
    now apply (after_registering_lookup _ st i n c). }
  split; [|split].
  - intros n c Hne Hn. destruct (Hidx n c Hn) as (i & Hi & Hp).
    exists (opened st + i). split; [now apply Get_found|].
    rewrite after_registering_opened. apply lookup_lt_Some in Hi. lia.
  - intros n n' p [c Hn] [c' Hn'] Hp Hp'.
    destruct (Hidx n c Hn) as (i & Hi & Hpi).
    destruct (Hidx n' c' Hn') as (i' & Hi' & Hpi').
    rewrite Hpi in Hp. rewrite Hpi' in Hp'.
    assert (i = i') by (injection Hp; injection Hp'; lia). subst i'.
    rewrite Hi in Hi'. now injection Hi'.
  - intros n Hn. unfold Get. destruct (String.eqb n ""); [reflexivity|].
    rewrite after_registering_other; [now destruct (pool st !! n)|].
    intros Hin. apply range_keys in Hin as [c Hc]. congruence.
Qed.

Lemma RegisterDB_then_Get_witness :
  (forall n c, n <> "" -> configs !! n = Some c ->
     exists p, Get n (RegisterDB ok_driver canonical_ranger configs empty_State).2
               = ((Some {| db := p |}, None),
                  (RegisterDB ok_driver canonical_ranger configs empty_State).2)
               /\ opened empty_State <= p
                  < opened (RegisterDB ok_driver canonical_ranger configs
                              empty_State).2)
  /\ (forall n n' p, is_Some (configs !! n) -> is_Some (configs !! n') ->
        pool (RegisterDB ok_driver canonical_ranger configs empty_State).2 !! n
        = Some p ->
        pool (RegisterDB ok_driver canonical_ranger configs empty_State).2 !! n'
        = Some p -> n = n')
  /\ (forall n, configs !! n = None ->
        (Get n (RegisterDB ok_driver canonical_ranger configs empty_State).2).1
        = (Get n empty_State).1).
Proof.
  apply (RegisterDB_then_Get ok_driver canonical_ranger configs empty_State).
  vm_compute. reflexivity.
Defined.

(** ** What a dispatch touches *)

Section DispatchFrame.
Variable d : Driver.

(** The state a dispatch leaves: that of one [execute], or the state with
    one query recorded, or the state as it was. *)
Lemma Do_state_cases (rv rw : ranger) (m : Meta) (conn : Conn) (st : State) :
  (exists q a, (Do d rv rw m conn st).2 = (execute d conn q a st).2)
  \/ (exists q a, (Do d rv rw m conn st).2
                  = record_call (DBQueryRow (db conn) q a) st)
  \/ (exists q a, (Do d rv rw m conn st).2
                  = record_call (DBQuery (db conn) q a) st)
  \/ (Do d rv rw m conn st).2 = st.
Proof.
  unfold Do.
  destruct (N.eqb (Op m) C).
  { destruct (Split rv (Values m)) as [[fields pd] args].
    unfold Conn_Create, bind, ret. left.
    exists (Sprintf rawInsert [Table m; fields; pd]), args.
    destruct (execute d conn _ _ st) as [res st1]. reflexivity. }
  destruct (N.eqb (Op m) U).
  { destruct (SplitWrap rv (Values m)) as [fields args].
    destruct (SplitWrap rw (Where m)) as [where_ whereArgs].
    unfold Conn_Update, bind, ret. left.
    exists (Sprintf rawUpdate [Table m; fields; where_]), (append args whereArgs).
    destruct (execute d conn _ _ st) as [res st1]. reflexivity. }
  destruct (N.eqb (Op m) R).
  { destruct (SplitWrap rw (Where m)) as [fields args].
    destruct (Batch (Meta_Query m)).
    - right. right. left. eexists _, _. reflexivity.
    - right. left. eexists _, _. reflexivity. }
  destruct (N.eqb (Op m) D).
  { destruct (SplitWrap rw (Where m)) as [field args].
    unfold Conn_Delete, bind, ret. left.
    exists (Sprintf rawDelete [Table m; field]), args.
    destruct (execute d conn _ _ st) as [res st1]. reflexivity. }
  right. right. right. reflexivity.
Qed.

Lemma execute_frame (c : Conn) (q : string) (a : slice Value) (st : State) :
  pool (execute d c q a st).2 = pool st
  /\ opened (execute d c q a st).2 = opened st
  /\ closed (execute d c q a st).2 = closed st.
Proof.
  unfold execute, DB_Prepare, Stmt_Exec, Stmt_Close, bind, ret. cbn.
  destruct (prepare_err d st (db c) q); cbn; now repeat split.
Qed.

Lemma execute_calls_shape (c : Conn) (q : string) (a : list Value) (st : State) :
  length (execute_calls d st c q a) <= 3
  /\ Forall (fun call => call_db call = db c) (execute_calls d st c q a).
Proof.
  unfold execute_calls. destruct (prepare_err d st (db c) q); cbn.
  - split; [lia|]. repeat constructor.
  - split; [lia|]. repeat constructor.
Qed.

(** X3. A dispatch never touches the registry, opens no pool and closes
    none; it makes at most three calls, all of them on the pool of the
    connection it was given. *)
Theorem Do_touches_only_conn (rv rw : ranger) (m : Meta) (conn : Conn) (st : State) :
  pool (Do d rv rw m conn st).2 = pool st
  /\ opened (Do d rv rw m conn st).2 = opened st
  /\ closed (Do d rv rw m conn st).2 = closed st
  /\ exists calls,
       sent (Do d rv rw m conn st).2 = sent st ++ calls
       /\ length calls <= 3
       /\ Forall (fun call => call_db call = db conn) calls.
Proof.
  destruct (Do_state_cases rv rw m conn st)
    as [(q & a & ->) | [(q & a & ->) | [(q & a & ->) | ->]]].
  - destruct (execute_frame conn q a st) as (-> & -> & ->).
    repeat split. exists (execute_calls d st conn q (elems a)).
    split; [apply execute_sent | apply execute_calls_shape].
  - repeat split. eexists. split; [reflexivity|].
    split; [cbn; lia | repeat constructor].
  - repeat split. eexists. split; [reflexivity|].
    split; [cbn; lia | repeat constructor].
  - repeat split. exists []. split; [now rewrite app_nil_r|].
    split; [cbn; lia | constructor].
Qed.

End DispatchFrame.

Lemma Do_frame (d : Driver) (rv rw : ranger) (m : Meta) (conn : Conn) (st : State) :
  pool (Do d rv rw m conn st).2 = pool st
  /\ opened (Do d rv rw m conn st).2 = opened st
  /\ closed (Do d rv rw m conn st).2 = closed st.
Proof.
  destruct (Do_state_cases d rv rw m conn st)
    as [(q & a & ->) | [(q & a & ->) | [(q & a & ->) | ->]]];
    [apply execute_frame | | |]; now repeat split.
Qed.

(** X2. The registry keeps its shape: if every registered or closed pool
    was opened before and no two names share a pool, the same holds after
    [RegisterDB] and [New] (whether they fail or not), after [UnregisterDB]
    and [CloseAll], after a dispatch, and after closing a connection that
    [Get] returned. *)
Theorem registry_ok_preserved (d : Driver) (rv rw r : ranger)
    (cfgs : gmap string Config) (m : Meta) (conn : Conn) (st : State) :
  registry_ok st ->
  registry_ok (RegisterDB d r cfgs st).2
  /\ registry_ok (New d rv r cfgs st).2
  /\ registry_ok (UnregisterDB d r st).2
  /\ registry_ok (CloseAll d r st).2
  /\ registry_ok (Do d rv rw m conn st).2
  /\ (forall n c, (Get n st).1 = (Some c, None) ->
        registry_ok (Conn_Close d c st).2).
Proof.
  intros Hok. split; [|split; [|split; [|split; [|split]]]].
  - now apply registry_ok_register_loop.
  - unfold New. destruct (negb (ConfigMap_Validate rv cfgs)); [exact Hok|].
    now apply registry_ok_register_loop.
  - rewrite UnregisterDB_state. cbn [snd]. apply registry_ok_after_closing; [exact Hok|].
    intros p Hp. apply range_values in Hp as [k Hk].
    destruct Hok as (Hb & _). now apply (Hb k).
  - change (CloseAll d r st) with (UnregisterDB d r st).
    rewrite UnregisterDB_state. cbn [snd]. apply registry_ok_after_closing; [exact Hok|].
    intros p Hp. apply range_values in Hp as [k Hk].
    destruct Hok as (Hb & _). now apply (Hb k).
  - destruct (Do_frame d rv rw m conn st) as (Hp & Ho & Hc).
    unfold registry_ok. now rewrite Hp, Ho, Hc.
  - intros n c HGet. unfold Get in HGet.
    destruct (String.eqb n ""); [discriminate|].
    destruct (pool st !! n) as [p|] eqn:Hp; [|discriminate].
    cbn in HGet. injection HGet as <-.
    unfold Conn_Close, Close, DB_Close, bind, ret. cbn.
    destruct Hok as (Hb & Hi & Hc). repeat split; cbn; [exact Hb | exact Hi |].
    intros q. rewrite elem_of_union, elem_of_singleton. intros [-> | Hq].
    + now apply (Hb n).
    + now apply Hc.
Qed.

Lemma registry_ok_preserved_witness :
  size (pool (RegisterDB ok_driver canonical_ranger configs empty_State).2) = 2
  /\ (Get "game" (RegisterDB ok_driver canonical_ranger configs empty_State).2).1
     = (Some conn0, None)
  /\ registry_ok
       (RegisterDB second_unreachable canonical_ranger configs
          (RegisterDB ok_driver canonical_ranger configs empty_State).2).2
  /\ registry_ok
       (New second_unreachable canonical_ranger canonical_ranger configs
          (RegisterDB ok_driver canonical_ranger configs empty_State).2).2
  /\ registry_ok
       (UnregisterDB second_unreachable canonical_ranger
          (RegisterDB ok_driver canonical_ranger configs empty_State).2).2
  /\ registry_ok
       (CloseAll second_unreachable canonical_ranger
          (RegisterDB ok_driver canonical_ranger configs empty_State).2).2
  /\ registry_ok
       (Do second_unreachable canonical_ranger canonical_ranger profile_update
          conn0 (RegisterDB ok_driver canonical_ranger configs empty_State).2).2
  /\ (forall n c,
        (Get n (RegisterDB ok_driver canonical_ranger configs empty_State).2).1
        = (Some c, None) ->
        registry_ok
          (Conn_Close second_unreachable c
             (RegisterDB ok_driver canonical_ranger configs empty_State).2).2).
Proof.
  split; [vm_compute; reflexivity|]. split; [vm_compute; reflexivity|].
  apply (registry_ok_preserved second_unreachable canonical_ranger
           canonical_ranger canonical_ranger configs profile_update conn0
           (RegisterDB ok_driver canonical_ranger configs empty_State).2).
  apply registry_ok_register_loop, registry_ok_empty.
Defined.

(** ** What registration and the sweep change *)

(** X4. [RegisterDB] closes no pool and sends no statement; it opens at
    most one pool per entry of the configuration map, and a name that is
    not in the map keeps the entry it had, whether the call fails or not. *)
Theorem RegisterDB_only_adds (d : Driver) (r : ranger)
    (cfgs : gmap string Config) (st : State) :
  closed (RegisterDB d r cfgs st).2 = closed st
  /\ sent (RegisterDB d r cfgs st).2 = sent st
  /\ opened st <= opened (RegisterDB d r cfgs st).2 <= opened st + size cfgs
  /\ (forall n, cfgs !! n = None ->
        pool (RegisterDB d r cfgs st).2 !! n = pool st !! n).
Proof.
  unfold RegisterDB.
  destruct (register_loop d (range r cfgs) st) as [err st'] eqn:H. cbn [snd].
  assert (Hother : forall l1 l2 n, range r cfgs = l1 ++ l2 -> cfgs !! n = None ->
                     pool (after_registering l1 st) !! n = pool st !! n).
  { intros l1 l2 n Hl Hn. apply after_registering_other. intros Hin.
    assert (Hin' : n ∈ (range r cfgs).*1)
      by (rewrite Hl, fmap_app; apply elem_of_app; now left).
    apply range_keys in Hin' as [c Hc]. congruence. }
  pose proof (range_length r cfgs) as Hlen.
  apply register_loop_result in H
    as [[_ ->] | (e & l1 & n & c & l2 & _ & Hl & [[_ ->] | (_ & _ & ->)])].
  - destruct (after_registering_frame (range r cfgs) st) as [-> ->].
    rewrite after_registering_opened. repeat split; try lia.
    intros n Hn. apply (Hother (range r cfgs) [] n); [now rewrite app_nil_r | exact Hn].
  - destruct (after_registering_frame l1 st) as [-> ->].
    rewrite after_registering_opened.
    rewrite Hl, length_app in Hlen. cbn in Hlen. repeat split; try lia.
    intros k Hk. now apply (Hother l1 ((n, c) :: l2) k).
  - cbn [alloc_pool closed sent opened pool].
    destruct (after_registering_frame l1 st) as [-> ->].
    rewrite after_registering_opened.
    rewrite Hl, length_app in Hlen. cbn in Hlen. repeat split; try lia.
    intros k Hk. now apply (Hother l1 ((n, c) :: l2) k).
Qed.

(** X5. A pool that opens but does not answer the ping is abandoned: when
    every pool can be opened and [RegisterDB] returns an error, the pool
    opened last is stored under no name and was not closed. *)
Theorem unreachable_pool_abandoned (d : Driver) (r : ranger)
    (cfgs : gmap string Config) (st : State) (e : error) :
  registry_ok st ->
  (forall st c, open_err d st c = None) ->
  (RegisterDB d r cfgs st).1 = Some e ->
  opened st < opened (RegisterDB d r cfgs st).2
  /\ (forall n, pool (RegisterDB d r cfgs st).2 !! n
                <> Some (opened (RegisterDB d r cfgs st).2 - 1))
  /\ opened (RegisterDB d r cfgs st).2 - 1 ∉ closed (RegisterDB d r cfgs st).2.
Proof.
  intros Hok Hopen. unfold RegisterDB.
  destruct (register_loop d (range r cfgs) st) as [err st'] eqn:H.
  cbn [fst snd]. intros ->.
  apply register_loop_result in H
    as [[He _] | (e' & l1 & n & c & l2 & _ & Hl & [[Ho _] | (_ & _ & ->)])].
  - discriminate.
  - rewrite Hopen in Ho. discriminate.
  - pose proof (registry_ok_after_registering l1 st Hok) as (Hb & _ & Hc).
    cbn [alloc_pool opened pool closed].
    replace (S (opened (after_registering l1 st)) - 1)
      with (opened (after_registering l1 st)) by lia.
    split; [rewrite after_registering_opened; lia|]. split.
    + intros k Hk. apply Hb in Hk. lia.
    + intros Hin. apply Hc in Hin. lia.
Qed.

Lemma unreachable_pool_abandoned_witness :
  opened empty_State
  < opened (RegisterDB second_unreachable canonical_ranger configs empty_State).2
  /\ (forall n,
        pool (RegisterDB second_unreachable canonical_ranger configs empty_State).2
          !! n
        <> Some (opened (RegisterDB second_unreachable canonical_ranger configs
                           empty_State).2 - 1))
  /\ opened (RegisterDB second_unreachable canonical_ranger configs empty_State).2 - 1
     ∉ closed (RegisterDB second_unreachable canonical_ranger configs empty_State).2.
Proof.
  apply (unreachable_pool_abandoned second_unreachable canonical_ranger configs
           empty_State (sql_error "dial tcp: connection refused")).
  - apply registry_ok_empty.
  - intros; reflexivity.
  - vm_compute. reflexivity.
Defined.

(** X6. The sweep closes the pools of the registry and no other: a pool
    is closed after [UnregisterDB] exactly when it was closed before or
    some name of the registry holds it; the sweep opens no pool and sends
    no statement. *)
Theorem UnregisterDB_closes_exactly (d : Driver) (r : ranger) (st : State) :
  (forall p, p ∈ closed (UnregisterDB d r st).2
             <-> p ∈ closed st \/ exists n, pool st !! n = Some p)
  /\ opened (UnregisterDB d r st).2 = opened st
  /\ sent (UnregisterDB d r st).2 = sent st.
Proof.
  rewrite UnregisterDB_state. cbn [snd after_closing closed opened sent].
  split; [|now split].
  intros p. rewrite elem_of_union, elem_of_list_to_set, range_values. tauto.
Qed.

(** X7. A pool replaced by a second registration of its name is never
    closed by the sweep: if [RegisterDB] succeeds on a map that holds a
    name already registered on an open pool, that pool is out of the
    registry afterwards and still not closed after [UnregisterDB]. *)
Theorem replaced_pool_never_closed (d : Driver) (r r' : ranger)
    (cfgs : gmap string Config) (st : State) (n : string) (c : Config) (p : nat) :
  registry_ok st ->
  (RegisterDB d r cfgs st).1 = None ->
  cfgs !! n = Some c ->
  pool st !! n = Some p ->
  p ∉ closed st ->
  (forall n', pool (RegisterDB d r cfgs st).2 !! n' <> Some p)
  /\ p ∉ closed (UnregisterDB d r' (RegisterDB d r cfgs st).2).2.
Proof.
  intros (Hb & Hinj & Hc) Hnone Hn Hp Hnc.
  rewrite (RegisterDB_None d r cfgs st Hnone).
  assert (Hout : forall n', pool (after_registering (range r cfgs) st) !! n' <> Some p).
  { intros n' Hn'.
    destruct (decide (n' ∈ (range r cfgs).*1)) as [Hin | Hin].
    - apply list_elem_of_fmap in Hin as [[k c'] [-> Hin]]. cbn in Hn'.
      apply list_elem_of_lookup in Hin as [i Hi].
      rewrite (after_registering_lookup _ st i k c' (range_NoDup_keys r cfgs) Hi) in Hn'.
      apply Hb in Hp. injection Hn' as <-. lia.
    - rewrite after_registering_other in Hn' by exact Hin.
      assert (n' = n) by now apply (Hinj n' n p). subst n'.
      apply Hin, range_keys. eauto. }
  split; [exact Hout|].
  rewrite UnregisterDB_state. cbn [snd after_closing closed].
  rewrite elem_of_union, elem_of_list_to_set, range_values.
  intros [[k Hk] | Hin].
  - now apply (Hout k).
  - destruct (after_registering_frame (range r cfgs) st) as [Hcl _].
    rewrite Hcl in Hin. contradiction.
Qed.

Lemma replaced_pool_never_closed_witness :
  (forall n',
     pool (RegisterDB ok_driver canonical_ranger configs
             (RegisterDB ok_driver canonical_ranger configs empty_State).2).2 !! n'
     <> Some 0)
  /\ 0 ∉ closed (UnregisterDB ok_driver reverse_ranger
                   (RegisterDB ok_driver canonical_ranger configs
                      (RegisterDB ok_driver canonical_ranger configs
                         empty_State).2).2).2.
Proof.
  apply (replaced_pool_never_closed ok_driver canonical_ranger reverse_ranger
           configs (RegisterDB ok_driver canonical_ranger configs empty_State).2
           "game" game_Config 0).
  - apply registry_ok_register_loop, registry_ok_empty.
  - vm_compute. reflexivity.
  - vm_compute. reflexivity.
  - vm_compute. reflexivity.
  - rewrite (RegisterDB_None ok_driver canonical_ranger configs empty_State eq_refl).
    destruct (after_registering_frame (range canonical_ranger configs) empty_State)
      as [-> _].
    cbn. set_solver.
Defined.

(** ** Validation and configuration maps *)

Lemma Config_Validate_valid (c : Config) :
  Config_Validate c = true <-> valid_Config c.
Proof.
  unfold Config_Validate, valid_Config.
  rewrite !andb_true_iff, negb_true_iff, String.eqb_neq, !Z.leb_le. tauto.
Qed.

(** The validation loop accepts a map exactly when it accepts every
    configuration in it, in whatever order it visits them. *)
Lemma ConfigMap_Validate_all (r : ranger) (cmp : gmap string Config) :
  ConfigMap_Validate r cmp = true
  <-> forall n c, cmp !! n = Some c -> Config_Validate c = true.
Proof.
  unfold ConfigMap_Validate.
  assert (Hloop : forall l : list (string * Config),
            (fix loop (l : list (string * Config)) : bool :=
               match l with
               | [] => true
               | (_, c) :: l' => if negb (Config_Validate c) then false else loop l'
               end) l = true
            <-> forall n c, (n, c) ∈ l -> Config_Validate c = true).
  { induction l as [|[k c] l IH].
    - split; [intros _ n c Hin; inversion Hin | reflexivity].
    - destruct (Config_Validate c) eqn:Hc; cbn [negb].
      + rewrite IH. split.
        * intros H n c' Hin. apply elem_of_cons in Hin as [[= -> ->] | Hin]; eauto.
        * intros H n c' Hin. apply (H n). now right.
      + split; [discriminate|]. intros H. rewrite <- Hc. apply (H k). now left. }
  rewrite Hloop. split.
  - intros H n c Hn. apply (H n). now apply range_elem.
  - intros H n c Hn. apply (H n). now apply range_elem in Hn.
Qed.

(** X8. [New] validates before it opens anything: a map that holds one
    configuration [Config.Validate] refuses (an empty DSN or a negative
    size or time) is refused as a whole, with nothing opened and nothing
    registered; a map of valid configurations is registered as
    [RegisterDB] does. *)
Theorem New_validates_first (d : Driver) (rv r : ranger)
    (cfgs : gmap string Config) (st : State) :
  (forall c, Config_Validate c = true <-> valid_Config c)
  /\ ((forall n c, cfgs !! n = Some c -> valid_Config c) ->
      New d rv r cfgs st = RegisterDB d r cfgs st)
  /\ (forall n c, cfgs !! n = Some c -> ~ valid_Config c ->
      New d rv r cfgs st
      = (Some (errors_New "incorrect config parameters"), st)).
Proof.
  split; [apply Config_Validate_valid|]. split.
  - intros Hall. apply New_valid. apply ConfigMap_Validate_all.
    intros n c Hn. apply Config_Validate_valid. now apply (Hall n).
  - intros n c Hn Hbad. unfold New.
    destruct (ConfigMap_Validate rv cfgs) eqn:Hv; [|reflexivity].
    exfalso. apply Hbad, Config_Validate_valid.
    now apply (proj1 (ConfigMap_Validate_all rv cfgs) Hv n).
Qed.

(** X9. [ConfigMap.Set] on a nil map panics.  On a map that is not nil
    it gives a name to the first configuration set for it: it fails exactly
    when the name is taken, never changes another name, leaves a taken name
    with the configuration it had, and once a name was set, setting it
    again fails and changes nothing. *)
Theorem ConfigMap_Set_first_wins (cmp : gmap string Config) (n : string)
    (c c' : Config) :
  ConfigMap_Set None n c = panics "assignment to entry in nil map"
  /\ exists err cmp',
       ConfigMap_Set (Some cmp) n c = returned (err, cmp')
       /\ (err = None <-> cmp !! n = None)
       /\ (forall k, k <> n -> cmp' !! k = cmp !! k)
       /\ cmp' !! n = Some (default c (cmp !! n))
       /\ ConfigMap_Set (Some cmp') n c'
          = returned (Some (errors_New "exists connection config"), cmp').
Proof.
  split; [reflexivity|]. unfold ConfigMap_Set.
  destruct (cmp !! n) as [c0|] eqn:Hn.
  - eexists _, _. split; [reflexivity|]. cbn [default].
    split; [split; discriminate|]. split; [reflexivity|]. split; [exact Hn|].
    now rewrite Hn.
  - eexists _, _. split; [reflexivity|]. cbn [default].
    split; [split; reflexivity|]. split.
    + intros k Hk. now rewrite lookup_insert_ne.
    + split; [apply lookup_insert_eq|]. now rewrite lookup_insert_eq.
Qed.

(** ** What a dispatch returns *)

(** The [Done] of a dispatch, kind by kind. *)
Lemma Do_Done_cases (d : Driver) (rv rw : ranger) (m : Meta) (conn : Conn)
    (st : State) :
  ((Op m = C \/ Op m = U \/ Op m = D)
   /\ exists (res : Result + error) (t : Z),
        (Do d rv rw m conn st).1
        = {| result := val_of res; row := None; rows := None;
             Err := err_of res; Runtime := t |})
  \/ (Op m = R /\ Batch (Meta_Query m) = false
      /\ exists (rw0 : Row) (t : Z),
           (Do d rv rw m conn st).1
           = {| result := None; row := Some rw0; rows := None;
                Err := None; Runtime := t |})
  \/ (Op m = R /\ Batch (Meta_Query m) = true
      /\ exists (res : Rows + error) (t : Z),
           (Do d rv rw m conn st).1
           = {| result := None; row := None; rows := val_of res;
                Err := err_of res; Runtime := t |})
  \/ ((Op m <> C /\ Op m <> U /\ Op m <> R /\ Op m <> D)
      /\ exists t : Z,
           (Do d rv rw m conn st).1
           = {| result := None; row := None; rows := None;
                Err := Some ErrInvalidCurd; Runtime := t |}).
Proof.
  unfold Do.
  destruct (N.eqb (Op m) C) eqn:HC.
  { apply N.eqb_eq in HC. left. split; [auto|].
    destruct (Split rv (Values m)) as [[fields pd] args].
    unfold Conn_Create, bind, ret.
    destruct (execute d conn _ _ st) as [res st1]. eexists res, _. reflexivity. }
  destruct (N.eqb (Op m) U) eqn:HU.
  { apply N.eqb_eq in HU. left. split; [auto|].
    destruct (SplitWrap rv (Values m)) as [fields args].
    destruct (SplitWrap rw (Where m)) as [where_ whereArgs].
    unfold Conn_Update, bind, ret.
    destruct (execute d conn _ _ st) as [res st1]. eexists res, _. reflexivity. }
  destruct (N.eqb (Op m) R) eqn:HR.
  { apply N.eqb_eq in HR.
    destruct (SplitWrap rw (Where m)) as [fields args].
    destruct (Batch (Meta_Query m)) eqn:Hb.
    - right. right. left. repeat split; [exact HR|].
      unfold Conn_QueryRows, DB_Query, bind, ret. eexists _, _. reflexivity.
    - right. left. repeat split; [exact HR|].
      unfold Conn_QueryRow, DB_QueryRow, bind, ret. eexists _, _. reflexivity. }
  destruct (N.eqb (Op m) D) eqn:HD.
  { apply N.eqb_eq in HD. left. split; [auto|].
    destruct (SplitWrap rw (Where m)) as [field args].
    unfold Conn_Delete, bind, ret.
    destruct (execute d conn _ _ st) as [res st1]. eexists res, _. reflexivity. }
  apply N.eqb_neq in HC, HU, HR, HD.
  right. right. right. split; [auto|]. eexists. reflexivity.
Qed.

(** X10. A dispatch fills at most one of the three payloads, the one of
    its kind.  After a Create, Update or Delete, [Row] is nil, [Rows] is
    nil with the error of the dispatch, and the write result is there
    exactly when the error is nil.  After a Read the write accessors
    return -1 and [ErrResultNil]; a single-row Read returns a row and never
    an error; a batch Read returns rows exactly when the error is nil. *)
Theorem Do_payload_by_kind (d : Driver) (rv rw : ranger) (m : Meta)
    (conn : Conn) (st : State) :
  populated (Do d rv rw m conn st).1 <= 1
  /\ (Op m = C \/ Op m = U \/ Op m = D ->
        Done_Row (Do d rv rw m conn st).1 = None
        /\ Done_Rows (Do d rv rw m conn st).1
           = (None, Done_Error (Do d rv rw m conn st).1)
        /\ (is_Some (result (Do d rv rw m conn st).1)
            <-> Done_Error (Do d rv rw m conn st).1 = None))
  /\ (Op m = R ->
        Done_LastInsertId (Do d rv rw m conn st).1 = ((-1)%Z, Some ErrResultNil)
        /\ Done_RowsAffected (Do d rv rw m conn st).1 = ((-1)%Z, Some ErrResultNil))
  /\ (Op m = R -> Batch (Meta_Query m) = false ->
        is_Some (Done_Row (Do d rv rw m conn st).1)
        /\ Done_Error (Do d rv rw m conn st).1 = None)
  /\ (Op m = R -> Batch (Meta_Query m) = true ->
        Done_Row (Do d rv rw m conn st).1 = None
        /\ (is_Some (rows (Do d rv rw m conn st).1)
            <-> Done_Error (Do d rv rw m conn st).1 = None)).
Proof.
  unfold Done_Row, Done_Rows, Done_Error, Done_LastInsertId, Done_RowsAffected,
    populated.
  destruct (Do_Done_cases d rv rw m conn st)
    as [(Hk & res & t & ->) | [(Hk & Hb & r0 & t & ->)
       | [(Hk & Hb & res & t & ->) | ((HC & HU & HR & HD) & t & ->)]]];
    cbn [result row rows Err].
  - assert (HnR : Op m <> R) by (destruct Hk as [-> | [-> | ->]]; discriminate).
    split; [destruct res; cbn; lia|].
    split; [|repeat split; intros; contradiction].
    intros _. split; [reflexivity|]. split; [reflexivity|].
    destruct res as [x|e]; cbn [val_of err_of]; split;
      try reflexivity; try discriminate; eauto.
    intros [? ?]; discriminate.
  - assert (Hw : ~ (Op m = C \/ Op m = U \/ Op m = D))
      by (rewrite Hk; intros [? | [? | ?]]; discriminate).
    split; [cbn; lia|]. split; [intros; contradiction|].
    split; [intros _; split; reflexivity|].
    split; [intros _ _; split; [eauto | reflexivity]|].
    intros _ Ht. congruence.
  - assert (Hw : ~ (Op m = C \/ Op m = U \/ Op m = D))
      by (rewrite Hk; intros [? | [? | ?]]; discriminate).
    split; [destruct res; cbn; lia|]. split; [intros; contradiction|].
    split; [intros _; split; reflexivity|].
    split; [intros _ Hf; congruence|].
    intros _ _. split; [reflexivity|].
    destruct res as [x|e]; cbn [val_of err_of]; split;
      try reflexivity; try discriminate; eauto.
    intros [? ?]; discriminate.
  - split; [cbn; lia|].
    split; [intros [? | [? | ?]]; contradiction|].
    repeat split; intros; contradiction.
Qed.

(** ** Reads and the convenient call methods *)

(** X11. A Read dispatch makes exactly one call: [Query] when the batch
    flag is set, [QueryRow] otherwise, with the same text and arguments.
    The projection is [*] when the field list is empty and the fields
    joined by commas otherwise; the conditions are the clauses of the
    condition map, so an empty map leaves the text ending in [WHERE ]. *)
Theorem Do_Read_sends (d : Driver) (rv rw : ranger) (m : Meta) (conn : Conn)
    (st : State) :
  Op m = R ->
  let text :=
    "SELECT "
    +:+ match Fields (Meta_Query m) with
        | [] => "*"
        | _ :: _ => Join (Fields (Meta_Query m)) ","
        end
    +:+ " FROM " +:+ Table m +:+ " WHERE "
    +:+ Join (clause <$> (range rw (Where m)).*1) "," in
  let args := (range rw (Where m)).*2 in
  sent (Do d rv rw m conn st).2
  = sent st ++ [if Batch (Meta_Query m)
                then DBQuery (db conn) text args
                else DBQueryRow (db conn) text args].
Proof.
  intros Hop text args. unfold Do. rewrite Hop.
  change (N.eqb R C) with false. change (N.eqb R U) with false.
  change (N.eqb R R) with true. cbv iota.
  rewrite SplitWrap_any, Sprintf_rawQuery.
  assert (Hs : (if Nat.ltb 0 (length (Fields (Meta_Query m)))
                then Join (Fields (Meta_Query m)) "," else "*")
               = match Fields (Meta_Query m) with
                 | [] => "*"
                 | _ :: _ => Join (Fields (Meta_Query m)) ","
                 end)
    by (destruct (Fields (Meta_Query m)); reflexivity).
  rewrite Hs.
  destruct (Batch (Meta_Query m));
    unfold Conn_QueryRows, Conn_QueryRow, DB_Query, DB_QueryRow, bind, ret;
    reflexivity.
Qed.

Lemma Do_Read_sends_witness :
  sent (Do ok_driver canonical_ranger canonical_ranger profile_query conn0
          empty_State).2
  = [DBQueryRow 0 "SELECT first_name,last_name FROM profile WHERE `id`=?"
       [VInt 1]].
Proof.
  rewrite (Do_Read_sends ok_driver canonical_ranger canonical_ranger
             profile_query conn0 empty_State eq_refl).
  vm_compute. reflexivity.
Defined.

Section ConvenientCalls.
Variable d : Driver.

(** X12. [TraceExec] makes exactly one [Exec] call, and returns the result
    exactly when the statement was executed and the result can tell its
    affected rows: when [RowsAffected] fails, the statement has run and its
    result is dropped for the error. *)
Theorem TraceExec_result (c : Conn) (query : string) (args : slice Value)
    (st : State) :
  sent (TraceExec d c query args st).2
  = sent st ++ [DBExec (db c) query (elems args)]
  /\ (forall res,
        (TraceExec d c query args st).1 = inl res
        <-> db_exec d st (db c) query (elems args) = inl res
            /\ (RowsAffected res).2 = None)
  /\ (forall res e,
        db_exec d st (db c) query (elems args) = inl res ->
        (RowsAffected res).2 = Some e ->
        (TraceExec d c query args st).1 = inr e).
Proof.
  split; [apply TraceExec_sent|].
  unfold TraceExec, DB_Exec, bind, ret. cbn.
  destruct (db_exec d st (db c) query (elems args)) as [r|e0]; cbn.
  - destruct (RowsAffected r) as [n [e1|]] eqn:Hr; cbn; split.
    + intros res. split; [discriminate|].
      intros [[= <-] H]. rewrite Hr in H. discriminate.
    + intros res e [= <-]. rewrite Hr. now intros [= <-].
    + intros res. split.
      * intros [= <-]. now rewrite Hr.
      * now intros [[= <-] _].
    + intros res e [= <-]. rewrite Hr. discriminate.
  - split.
    + intros res. split; [discriminate | intros [H _]; discriminate].
    + intros res e H. discriminate.
Qed.

(** X13. The write methods [EasyInsert], [EasyDelete] and [EasyUpdate]
    refuse an empty map with an error of their own and send nothing; on
    non-empty maps [EasyInsert] and [EasyDelete] make exactly one [Exec]
    call, with the statement of the template and the values of the map. *)
Theorem Easy_writes_guarded (rv rw : ranger) (c : Conn) (table : string)
    (kv where_ : KeyValue) (st : State) :
  (size kv = 0 ->
     EasyInsert d rv c table kv st = (inr (errors_New "invalid insert values"), st))
  /\ (size where_ = 0 ->
        EasyDelete d rw c table where_ st
        = (inr (errors_New "invalid delete condition"), st))
  /\ (size kv = 0 \/ size where_ = 0 ->
        EasyUpdate d rv rw c table kv where_ st
        = (inr (errors_New "invalid update KeyValue"), st))
  /\ (0 < size kv ->
        sent (EasyInsert d rv c table kv st).2
        = sent st ++ [DBExec (db c)
            ("INSERT INTO " +:+ table +:+ "("
             +:+ Join (quote <$> (range rv kv).*1) "," +:+ ")VALUES("
             +:+ Join (replicate (size kv) "?") "," +:+ ")")
            (range rv kv).*2])
  /\ (0 < size where_ ->
        sent (EasyDelete d rw c table where_ st).2
        = sent st ++ [DBExec (db c)
            ("DELETE FROM " +:+ table +:+ " WHERE "
             +:+ Join (clause <$> (range rw where_).*1) ",")
            (range rw where_).*2]).
Proof.
  split; [|split; [|split; [|split]]].
  - intros H. unfold EasyInsert. now rewrite H.
  - intros H. unfold EasyDelete. now rewrite H.
  - intros H. unfold EasyUpdate.
    destruct H as [H | H]; rewrite H; cbn [Nat.eqb orb]; [reflexivity|].
    now rewrite orb_true_r.
  - intros H. unfold EasyInsert. rewrite (size_eqb_pos kv H).
    rewrite Split_any, TraceExec_sent, Sprintf_rawInsert, range_length.
    reflexivity.
  - intros H. unfold EasyDelete. rewrite (size_eqb_pos where_ H).
    rewrite SplitWrap_any, TraceExec_sent, Sprintf_rawDelete.
    reflexivity.
Qed.

(** X14. [EasySelect] queries only when it has fields and conditions, and
    returns an empty row otherwise.  [EasySelectBatch] checks the fields
    only: with fields it always makes one [Query] call, whose text ends in
    [WHERE ] when the condition map is empty, and it returns rows exactly
    when the query did not fail. *)
Theorem Easy_reads_guarded (r : ranger) (c : Conn) (table : string)
    (fields : list string) (where_ : KeyValue) (st : State) :
  (fields = [] \/ size where_ = 0 ->
     EasySelect d r c table fields where_ st = (zero_Row, st))
  /\ (fields = [] -> EasySelectBatch d r c table fields where_ st = (None, st))
  /\ (fields <> [] ->
        sent (EasySelectBatch d r c table fields where_ st).2
        = sent st ++ [DBQuery (db c)
            ("SELECT " +:+ Fields_Join fields +:+ " FROM " +:+ table +:+ " WHERE "
             +:+ Join (clause <$> (range r where_).*1) ",")
            (range r where_).*2]
        /\ (is_Some (EasySelectBatch d r c table fields where_ st).1
            <-> exists rows0,
                  query_rows d st (db c)
                    ("SELECT " +:+ Fields_Join fields +:+ " FROM " +:+ table
                     +:+ " WHERE " +:+ Join (clause <$> (range r where_).*1) ",")
                    (range r where_).*2 = inl rows0))
  /\ (fields <> [] -> size where_ = 0 ->
        sent (EasySelectBatch d r c table fields where_ st).2
        = sent st ++ [DBQuery (db c)
            ("SELECT " +:+ Fields_Join fields +:+ " FROM " +:+ table +:+ " WHERE ")
            []]).
Proof.
  assert (Hbatch : fields <> [] ->
            EasySelectBatch d r c table fields where_ st
            = TraceSelectBatch d c
                ("SELECT " +:+ Fields_Join fields +:+ " FROM " +:+ table +:+ " WHERE "
                 +:+ Join (clause <$> (range r where_).*1) ",")
                (mk_slice (range r where_).*2) st).
  { intros Hf. unfold EasySelectBatch. destruct fields as [|f fs]; [congruence|].
    cbn [length Nat.eqb]. now rewrite SplitWrap_any, Sprintf_rawQuery. }
  split; [|split; [|split]].
  - intros [-> | H]; unfold EasySelect; [reflexivity|].
    rewrite H. cbn [Nat.eqb]. now rewrite orb_true_r.
  - intros ->. reflexivity.
  - intros Hf. rewrite (Hbatch Hf).
    unfold TraceSelectBatch, DB_Query, bind, ret. cbn.
    destruct (query_rows d st (db c) _ (range r where_).*2) as [rows0|e]; cbn.
    + split; [reflexivity|]. split; eauto.
    + split; [reflexivity|]. split; [intros [? ?]; discriminate|].
      intros [? ?]; discriminate.
  - intros Hf Hw. rewrite (Hbatch Hf), (range_size_0 r where_ Hw).
    unfold TraceSelectBatch, DB_Query, bind, ret. cbn.
    rewrite str_app_nil_r.
    destruct (query_rows d st (db c) _ []); reflexivity.
Qed.

End ConvenientCalls.

(** ** Separators and quoting *)

Lemma Join_cons2 (x y : string) (l : list string) (sep : string) :
  Join (x :: y :: l) sep = x +:+ sep +:+ Join (y :: l) sep.
Proof. reflexivity. Qed.

(** A joined list ends as its last piece ends. *)
Lemma Join_ends (c : string) (l : list string) :
  l <> [] -> Forall (fun x => exists s, x = s +:+ c) l ->
  exists s, Join l "," = s +:+ c.
Proof.
  induction l as [|x l IH]; [congruence | intros _ Hall].
  apply Forall_cons in Hall as [[s Hx] Hall].
  destruct l as [|y l].
  - exists s. exact Hx.
  - destruct (IH ltac:(discriminate) Hall) as [s' Hs'].
    exists (x +:+ "," +:+ s'). rewrite Join_cons2, Hs'.
    now rewrite !str_app_assoc.
Qed.

Lemma placeholders_commas (n : nat) :
  count_byte "," (Join (replicate n "?") ",") = n - 1
  /\ String.length (Join (replicate n "?") ",") = 2 * n - 1.
Proof.
  induction n as [|[|n] IH]; [split; reflexivity | split; reflexivity |].
  change (replicate (S (S n)) "?") with ("?" :: "?" :: replicate n "?").
  rewrite Join_cons2. change ("?" :: replicate n "?") with (replicate (S n) "?").
  rewrite !count_byte_app, !str_length_app. destruct IH as [-> ->].
  cbn [count_byte String.length Ascii.eqb]. cbn. split; lia.
Qed.

(** X15. The splitter never leaves a trailing separator: on a non-empty
    map the field list ends with a back quote and the placeholder list and
    the clause list end with a question mark; the placeholder list of a map
    of [n] entries holds [n - 1] commas in [2 n - 1] bytes. *)
Theorem Split_no_trailing_separator (r : ranger) (kv : KeyValue) :
  0 < size kv ->
  (exists s, (Split r kv).1.1 = s +:+ "`")
  /\ (exists s, (Split r kv).1.2 = s +:+ "?")
  /\ (exists s, (SplitWrap r kv).1 = s +:+ "?")
  /\ count_byte "," (Split r kv).1.2 = size kv - 1
  /\ String.length (Split r kv).1.2 = 2 * size kv - 1.
Proof.
  intros Hsz. rewrite Split_any, SplitWrap_any. cbn [fst snd].
  pose proof (range_nonempty r kv Hsz) as Hne.
  assert (Hks : (range r kv).*1 <> [])
    by (intros H; apply fmap_nil_inv in H; contradiction).
  rewrite range_length.
  split; [|split; [|split; [|apply placeholders_commas]]].
  - apply Join_ends.
    + intros H. apply fmap_nil_inv in H. contradiction.
    + apply Forall_fmap, Forall_forall. intros k _. cbn.
      exists ("`" +:+ k). unfold quote. now rewrite str_app_assoc.
  - apply Join_ends.
    + intros H. apply (f_equal length) in H. rewrite length_replicate in H.
      simpl in H. lia.
    + apply Forall_replicate. now exists "".
  - apply Join_ends.
    + intros H. apply fmap_nil_inv in H. contradiction.
    + apply Forall_fmap, Forall_forall. intros k _. cbn.
      exists (quote k +:+ "="). unfold clause. now rewrite str_app_assoc.
Qed.

Lemma Split_no_trailing_separator_witness :
  (exists s, (Split canonical_ranger kv_name).1.1 = s +:+ "`")
  /\ (exists s, (Split canonical_ranger kv_name).1.2 = s +:+ "?")
  /\ (exists s, (SplitWrap canonical_ranger kv_name).1 = s +:+ "?")
  /\ count_byte "," (Split canonical_ranger kv_name).1.2 = size kv_name - 1
  /\ String.length (Split canonical_ranger kv_name).1.2 = 2 * size kv_name - 1.
Proof.
  apply (Split_no_trailing_separator canonical_ranger kv_name).
  vm_compute. lia.
Defined.

(** X16. [Fields.Join] on a non-empty list is the list of the back-quoted
    names joined by commas, so for the keys a loop visits it is the field
    list [Split] builds in the same order. *)
Theorem Fields_Join_quotes (f : list string) (r : ranger) (kv : KeyValue) :
  f <> [] ->
  Fields_Join f = Join (quote <$> f) ","
  /\ (0 < size kv -> Fields_Join (range r kv).*1 = (Split r kv).1.1).
Proof.
  assert (H : forall l : list string, l <> [] ->
                Fields_Join l = Join (quote <$> l) ",").
  { induction l as [|x l IH]; [congruence | intros _].
    destruct l as [|y l]; [reflexivity|].
    specialize (IH ltac:(discriminate)). unfold Fields_Join in *.
    change (quote <$> x :: y :: l) with (quote x :: quote y :: (quote <$> l)).
    rewrite !Join_cons2.
    change (quote y :: (quote <$> l)) with (quote <$> y :: l).
    rewrite <- IH. unfold quote. now rewrite !str_app_assoc. }
  intros Hf. split; [now apply H|].
  intros Hsz. rewrite Split_any. cbn [fst]. apply H.
  intros Hnil. apply fmap_nil_inv in Hnil.
  now apply (range_nonempty r kv Hsz).
Qed.

Lemma Fields_Join_quotes_witness :
  Fields_Join ["first_name"; "last_name"]
  = Join (quote <$> ["first_name"; "last_name"]) ","
  /\ (0 < size kv_name ->
      Fields_Join (range reverse_ranger kv_name).*1
      = (Split reverse_ranger kv_name).1.1).
Proof.
  apply (Fields_Join_quotes ["first_name"; "last_name"] reverse_ranger kv_name).
  discriminate.
Defined.

(** ** Building a descriptor from options *)

(** Functions that commute with each other can be applied in any order. *)
Lemma apply_all_Permutation (l l' : list OptionFunc) :
  l ≡ₚ l' ->
  (forall f g, f ∈ l -> g ∈ l -> forall m, f (g m) = g (f m)) ->
  forall m, foldl (fun m f => f m) m l = foldl (fun m f => f m) m l'.
Proof.
  induction 1 as [|x l l' Hp IH|x y l|l l' l'' Hp1 IH1 Hp2 IH2]; intros Hc m.
  - reflexivity.
  - cbn. apply IH. intros f g Hf Hg. apply Hc; now right.
  - cbn. f_equal. apply Hc; [right; left | left].
  - rewrite IH1 by exact Hc. apply IH2.
    intros f g Hf Hg. apply Hc; now rewrite Hp1.
Qed.

(** X17. The options of [NewMeta] do not depend on their order when each
    sets a field of its own: the five options, given in any order, build
    the descriptor with the five values.  An option given last wins over
    the ones before it, and without [WrapOp] the operation is [C]. *)
Theorem NewMeta_order_free (c : N) (t : string) (fl : list string) (b : bool)
    (v w : KeyValue) (l : list OptionFunc) :
  l ≡ₚ [WrapOp c; WrapTable t; WrapQuery fl b; WrapValues v; WrapWhere w] ->
  NewMeta l = {| Op := c; Table := t;
                 Meta_Query := {| Fields := fl; Batch := b |};
                 Values := v; Where := w |}
  /\ (forall fs f, NewMeta (fs ++ [f]) = f (NewMeta fs))
  /\ Op (NewMeta [WrapTable t; WrapQuery fl b; WrapValues v; WrapWhere w]) = C.
Proof.
  intros Hp. split; [|split; [|reflexivity]].
  - unfold NewMeta. symmetry in Hp.
    rewrite <- (apply_all_Permutation _ _ Hp); [reflexivity|].
    intros f g Hf Hg m.
    repeat (apply elem_of_cons in Hf as [-> | Hf]);
      try (now apply elem_of_nil in Hf);
      repeat (apply elem_of_cons in Hg as [-> | Hg]);
      try (now apply elem_of_nil in Hg); reflexivity.
  - intros fs f. unfold NewMeta. now rewrite foldl_app.
Qed.

Lemma NewMeta_order_free_witness :
  NewMeta [WrapWhere (kv_id 1); WrapValues kv_tomi; WrapQuery [] false;
           WrapTable "profile"; WrapOp U]
  = profile_update
  /\ (forall fs f, NewMeta (fs ++ [f]) = f (NewMeta fs))
  /\ Op (NewMeta [WrapTable "profile"; WrapQuery [] false; WrapValues kv_tomi;
                  WrapWhere (kv_id 1)]) = C.
Proof.
  apply (NewMeta_order_free U "profile" [] false kv_tomi (kv_id 1)
           [WrapWhere (kv_id 1); WrapValues kv_tomi; WrapQuery [] false;
            WrapTable "profile"; WrapOp U]).
  apply (reverse_Permutation
           [WrapOp U; WrapTable "profile"; WrapQuery [] false;
            WrapValues kv_tomi; WrapWhere (kv_id 1)]).
Defined.

(** ** Transactions *)

Section TransactionRuns.
Variable t : TxDriver.

Lemma batch_calls_cons (db : nat) (x : Tx) (txs : list Tx) :
  batch_calls db (x :: txs)
  = [TxPrepare db (Tx_Query x);
     TxStmtExec db (Tx_Query x) (elems (Tx_Args x));
     TxStmtClose db (Tx_Query x)] ++ batch_calls db txs.
Proof. reflexivity. Qed.

Lemma batch_calls_no_Commit (db db' : nat) (txs : list Tx) :
  Commit db' ∉ batch_calls db txs.
Proof.
  unfold batch_calls. induction txs as [|x txs IH]; cbn.
  - apply not_elem_of_nil.
  - intros Hin.
    repeat (apply elem_of_cons in Hin as [Hin | Hin]; [discriminate|]).
    contradiction.
Qed.

Lemma stmt_prepares_nil (db : nat) (log0 : list TxCall) (x : Tx) :
  stmt_prepares t db log0 [] x = tx_prepare_err t log0 db (Tx_Query x).
Proof.
  unfold stmt_prepares. change (batch_calls db []) with (@nil TxCall).
  now rewrite app_nil_r.
Qed.

Lemma stmt_executes_nil (db : nat) (log0 : list TxCall) (x : Tx) :
  stmt_executes t db log0 [] x
  = tx_stmt_exec t (log0 ++ [TxPrepare db (Tx_Query x)]) db (Tx_Query x)
      (elems (Tx_Args x)).
Proof. reflexivity. Qed.

Lemma stmt_prepares_cons (db : nat) (log0 : list TxCall) (a : Tx)
    (txs1 : list Tx) (x : Tx) :
  stmt_prepares t db log0 (a :: txs1) x
  = stmt_prepares t db (log0 ++ batch_calls db [a]) txs1 x.
Proof.
  unfold stmt_prepares. rewrite batch_calls_cons.
  change (batch_calls db [a]) with
    [TxPrepare db (Tx_Query a);
     TxStmtExec db (Tx_Query a) (elems (Tx_Args a));
     TxStmtClose db (Tx_Query a)].
  now rewrite <- app_assoc.
Qed.

Lemma stmt_executes_cons (db : nat) (log0 : list TxCall) (a : Tx)
    (txs1 : list Tx) (x : Tx) :
  stmt_executes t db log0 (a :: txs1) x
  = stmt_executes t db (log0 ++ batch_calls db [a]) txs1 x.
Proof.
  unfold stmt_executes. rewrite batch_calls_cons.
  change (batch_calls db [a]) with
    [TxPrepare db (Tx_Query a);
     TxStmtExec db (Tx_Query a) (elems (Tx_Args a));
     TxStmtClose db (Tx_Query a)].
  now rewrite <- !app_assoc.
Qed.

Lemma stmts_run_nil (db : nat) (log0 : list TxCall) : stmts_run t db log0 [].
Proof. intros [|a txs1] x txs2 H; discriminate. Qed.

Lemma stmts_run_cons (db : nat) (log0 : list TxCall) (a : Tx) (txs : list Tx) :
  stmts_run t db log0 (a :: txs)
  <-> stmt_prepares t db log0 [] a = None
      /\ (exists r, stmt_executes t db log0 [] a = inl r)
      /\ stmts_run t db (log0 ++ batch_calls db [a]) txs.
Proof.
  split.
  - intros H. destruct (H [] a txs eq_refl) as [Hp He].
    split; [exact Hp|]. split; [exact He|].
    intros txs1 x txs2 ->.
    rewrite <- stmt_prepares_cons, <- stmt_executes_cons.
    now apply (H (a :: txs1) x txs2).
  - intros (Hp & He & Hr) [|b txs1] x txs2 Heq; injection Heq as <- ->.
    + now split.
    + rewrite stmt_prepares_cons, stmt_executes_cons. now apply (Hr txs1 x txs2).
Qed.

(** The statements before one that fails all ran. *)
Lemma stmts_run_app_l (db : nat) (log0 : list TxCall) (txs1 txs2 : list Tx) :
  stmts_run t db log0 (txs1 ++ txs2) -> stmts_run t db log0 txs1.
Proof.
  intros H l x r ->. apply (H l x (r ++ txs2)). now rewrite <- app_assoc.
Qed.

(** The loop of [ExecBatchTx], by what the database answers: either every
    statement was prepared, executed and closed in its turn, and the loop
    leaves the result of the last one; or the loop stopped at the first
    statement that could not be prepared, or that was prepared and could
    not be executed, and that statement is not closed. *)
Lemma batch_loop_run (c : Conn) (txs : list Tx) (res : option Result)
    (log0 : list TxCall) :
  (stmts_run t (db c) log0 txs
   /\ exists r,
        batch_loop t c txs res log0 = (inl r, log0 ++ batch_calls (db c) txs)
        /\ (txs = [] -> r = res)
        /\ (forall txs0 x, txs = txs0 ++ [x] ->
            exists r0, stmt_executes t (db c) log0 txs0 x = inl r0
                       /\ r = Some r0))
  \/ (exists e txs1 x txs2,
        txs = txs1 ++ x :: txs2
        /\ stmts_run t (db c) log0 txs1
        /\ ((stmt_prepares t (db c) log0 txs1 x = Some e
             /\ batch_loop t c txs res log0
                = (inr e, log0 ++ batch_calls (db c) txs1
                          ++ [TxPrepare (db c) (Tx_Query x)]))
            \/ (stmt_prepares t (db c) log0 txs1 x = None
                /\ stmt_executes t (db c) log0 txs1 x = inr e
                /\ batch_loop t c txs res log0
                   = (inr e, log0 ++ batch_calls (db c) txs1
                             ++ [TxPrepare (db c) (Tx_Query x);
                                 TxStmtExec (db c) (Tx_Query x)
                                   (elems (Tx_Args x))])))).
Proof.
  revert res log0. induction txs as [|a txs IH]; intros res log0.
  - left. split; [apply stmts_run_nil|]. exists res. split; [|split].
    + cbn. unfold retT. change (batch_calls (db c) []) with (@nil TxCall).
      now rewrite app_nil_r.
    + reflexivity.
    + intros [|b l] x H; discriminate.
  - cbn [batch_loop].
    unfold Tx_Prepare, TxStmt_Exec, TxStmt_Close, bindT, retT. cbn beta iota.
    destruct (tx_prepare_err t log0 (db c) (Tx_Query a)) as [e|] eqn:Hp.
    { right. exists e, [], a, txs. split; [reflexivity|].
      split; [apply stmts_run_nil|]. left.
      rewrite stmt_prepares_nil. split; [exact Hp|]. reflexivity. }
    destruct (tx_stmt_exec t (log0 ++ [TxPrepare (db c) (Tx_Query a)]) (db c)
                (Tx_Query a) (elems (Tx_Args a))) as [r0|e] eqn:He.
    2:{ right. exists e, [], a, txs. split; [reflexivity|].
        split; [apply stmts_run_nil|]. right.
        rewrite stmt_prepares_nil, stmt_executes_nil.
        split; [exact Hp|]. split; [exact He|].
        change (batch_calls (db c) []) with (@nil TxCall). cbn [app].
        now rewrite <- app_assoc. }
    replace ((log0 ++ [TxPrepare (db c) (Tx_Query a)])
             ++ [TxStmtExec (db c) (Tx_Query a) (elems (Tx_Args a))])
      with (log0 ++ [TxPrepare (db c) (Tx_Query a);
                     TxStmtExec (db c) (Tx_Query a) (elems (Tx_Args a))])
      by now rewrite <- app_assoc.
    replace ((log0 ++ [TxPrepare (db c) (Tx_Query a);
                       TxStmtExec (db c) (Tx_Query a) (elems (Tx_Args a))])
             ++ [TxStmtClose (db c) (Tx_Query a)])
      with (log0 ++ batch_calls (db c) [a])
      by (change (batch_calls (db c) [a]) with
            [TxPrepare (db c) (Tx_Query a);
             TxStmtExec (db c) (Tx_Query a) (elems (Tx_Args a));
             TxStmtClose (db c) (Tx_Query a)];
          now rewrite <- app_assoc).
    destruct (IH (Some r0) (log0 ++ batch_calls (db c) [a]))
      as [(Hrun & r & Hl & Hnil & Hlast)
         | (e & txs1 & x & txs2 & -> & Hrun & Hcase)].
    + left. split.
      { apply stmts_run_cons. rewrite stmt_prepares_nil, stmt_executes_nil.
        split; [exact Hp|]. split; [now exists r0 | exact Hrun]. }
      exists r. split; [|split].
      * rewrite Hl. f_equal. rewrite batch_calls_cons.
        change (batch_calls (db c) [a]) with
          [TxPrepare (db c) (Tx_Query a);
           TxStmtExec (db c) (Tx_Query a) (elems (Tx_Args a));
           TxStmtClose (db c) (Tx_Query a)].
        now rewrite <- app_assoc.
      * discriminate.
      * intros [|b txs0] x Heq; injection Heq as <- Heq.
        -- subst txs. exists r0. rewrite stmt_executes_nil.
           split; [exact He | now apply Hnil].
        -- rewrite stmt_executes_cons. now apply Hlast.
    + right. exists e, (a :: txs1), x, txs2. split; [reflexivity|]. split.
      { apply stmts_run_cons. rewrite stmt_prepares_nil, stmt_executes_nil.
        split; [exact Hp|]. split; [now exists r0 | exact Hrun]. }
      rewrite stmt_prepares_cons, stmt_executes_cons.
      change (batch_calls (db c) [a]) with
        [TxPrepare (db c) (Tx_Query a);
         TxStmtExec (db c) (Tx_Query a) (elems (Tx_Args a));
         TxStmtClose (db c) (Tx_Query a)] in *.
      rewrite batch_calls_cons.
      destruct Hcase as [(Hp' & ->) | (Hp' & He' & ->)]; [left | right].
      * split; [exact Hp'|]. now rewrite <- !app_assoc.
      * split; [exact Hp'|]. split; [exact He'|]. now rewrite <- !app_assoc.
Qed.

(** The four ways [ExecBatchTx] can go, by what the database answers. *)
Lemma ExecBatchTx_run (c : Conn) (txs : list Tx) (log : list TxCall) :
  (exists e, begin_err t log (db c) = Some e
             /\ ExecBatchTx t c txs log = ((None, Some e), log ++ [Begin (db c)]))
  \/ (begin_err t log (db c) = None /\ txs = []
      /\ ExecBatchTx t c txs log
         = ((None, Some (errors_New "empty submit tx")),
            log ++ [Begin (db c); Rollback (db c)]))
  \/ (begin_err t log (db c) = None
      /\ exists e txs1 x txs2,
           txs = txs1 ++ x :: txs2
           /\ stmts_run t (db c) (log ++ [Begin (db c)]) txs1
           /\ ((stmt_prepares t (db c) (log ++ [Begin (db c)]) txs1 x = Some e
                /\ ExecBatchTx t c txs log
                   = ((None, Some e),
                      log ++ Begin (db c) :: batch_calls (db c) txs1
                      ++ [TxPrepare (db c) (Tx_Query x); Rollback (db c)]))
               \/ (stmt_prepares t (db c) (log ++ [Begin (db c)]) txs1 x = None
                   /\ stmt_executes t (db c) (log ++ [Begin (db c)]) txs1 x
                      = inr e
                   /\ ExecBatchTx t c txs log
                      = ((None, Some e),
                         log ++ Begin (db c) :: batch_calls (db c) txs1
                         ++ [TxPrepare (db c) (Tx_Query x);
                             TxStmtExec (db c) (Tx_Query x) (elems (Tx_Args x));
                             Rollback (db c)]))))
  \/ (begin_err t log (db c) = None
      /\ stmts_run t (db c) (log ++ [Begin (db c)]) txs
      /\ exists txs0 x r0,
           txs = txs0 ++ [x]
           /\ stmt_executes t (db c) (log ++ [Begin (db c)]) txs0 x = inl r0
           /\ ExecBatchTx t c txs log
              = ((Some r0,
                  commit_err t (log ++ Begin (db c) :: batch_calls (db c) txs)
                    (db c)),
                 log ++ Begin (db c) :: batch_calls (db c) txs
                 ++ [Commit (db c); Rollback (db c)])).
Proof.
  unfold ExecBatchTx, BeginTx, bindT, retT. cbn beta iota.
  destruct (begin_err t log (db c)) as [e|] eqn:Hb.
  { left. exists e. now split. }
  right. destruct txs as [|x0 txs0] eqn:Htxs.
  { left. repeat split. cbn. unfold Tx_Rollback. cbn.
    now rewrite <- app_assoc. }
  rewrite <- Htxs. right.
  assert (Hne : txs <> []) by (subst; discriminate).
  replace (Nat.eqb (length txs) 0) with false
    by (subst; reflexivity).
  destruct (batch_loop_run c txs None (log ++ [Begin (db c)]))
    as [(Hrun & r & -> & _ & Hlast)
       | (e & txs1 & x & txs2 & Ht & Hrun & [(Hp & ->) | (Hp & He & ->)])].
  - right. split; [reflexivity|]. split; [exact Hrun|].
    destruct (exists_last Hne) as (txs' & y & Hy).
    destruct (Hlast txs' y Hy) as (r0 & He & ->).
    exists txs', y, r0. split; [exact Hy|]. split; [exact He|].
    unfold Tx_Commit, Tx_Rollback. cbn beta iota.
    rewrite <- !app_assoc. reflexivity.
  - left. split; [reflexivity|]. exists e, txs1, x, txs2.
    split; [exact Ht|]. split; [exact Hrun|]. left. split; [exact Hp|].
    unfold Tx_Rollback. cbn beta iota. now rewrite <- !app_assoc.
  - left. split; [reflexivity|]. exists e, txs1, x, txs2.
    split; [exact Ht|]. split; [exact Hrun|]. right.
    split; [exact Hp|]. split; [exact He|].
    unfold Tx_Rollback. cbn beta iota. now rewrite <- !app_assoc.
Qed.

(** A statement that fails is one the batch cannot get past. *)
Lemma stmts_run_stops (db : nat) (log0 : list TxCall) (txs1 txs2 : list Tx)
    (x : Tx) :
  stmts_run t db log0 (txs1 ++ x :: txs2) ->
  stmt_prepares t db log0 txs1 x = None
  /\ exists r, stmt_executes t db log0 txs1 x = inl r.
Proof. intros H. now apply (H txs1 x txs2). Qed.

(** The first statement that fails is determined by the database. *)
Lemma first_failure_unique (db : nat) (log0 : list TxCall)
    (l1 l2 r1 r2 : list Tx) (x1 x2 : Tx) :
  l1 ++ x1 :: r1 = l2 ++ x2 :: r2 ->
  stmts_run t db log0 l1 -> stmts_run t db log0 l2 ->
  ~ (stmt_prepares t db log0 l1 x1 = None
     /\ exists r, stmt_executes t db log0 l1 x1 = inl r) ->
  ~ (stmt_prepares t db log0 l2 x2 = None
     /\ exists r, stmt_executes t db log0 l2 x2 = inl r) ->
  l1 = l2 /\ x1 = x2 /\ r1 = r2.
Proof.
  revert l2 log0. induction l1 as [|a l1 IH]; intros [|b l2] log0 Heq H1 H2 N1 N2.
  - now injection Heq as <- <-.
  - injection Heq as <- ->. exfalso. apply N1.
    now apply stmts_run_cons in H2 as (? & ? & _).
  - injection Heq as <- <-. exfalso. apply N2.
    now apply stmts_run_cons in H1 as (? & ? & _).
  - injection Heq as <- Heq.
    apply stmts_run_cons in H1 as (_ & _ & H1).
    apply stmts_run_cons in H2 as (_ & _ & H2).
    rewrite stmt_prepares_cons, stmt_executes_cons in N1, N2.
    destruct (IH l2 _ Heq H1 H2 N1 N2) as (-> & -> & ->). now repeat split.
Qed.

End TransactionRuns.

Section TransactionProperties.
Variable t : TxDriver.

(** X18. [ExecBatchTx] commits the whole batch or nothing.  [Commit] is
    called exactly when the transaction begins, the batch is not empty and
    the database prepares and executes every statement in its turn.  When
    it is called, every statement of the batch was prepared, executed and
    closed before it, in order, the call returns what [Commit] returned,
    and the result it returns is the one the database gave for the last
    statement of the batch.  When it is not called, the call returns an
    error and no result.  A call that returns no error did commit.  Once
    the transaction has begun, the last call is always [Rollback]; when it
    cannot begin, nothing else is called. *)
Theorem ExecBatchTx_commits_whole_batch (c : Conn) (txs : list Tx)
    (log : list TxCall) :
  exists calls,
    (ExecBatchTx t c txs log).2 = log ++ Begin (db c) :: calls
    /\ (Commit (db c) ∈ calls
        <-> begin_err t log (db c) = None /\ txs <> []
            /\ stmts_run t (db c) (log ++ [Begin (db c)]) txs)
    /\ (Commit (db c) ∈ calls ->
        calls = batch_calls (db c) txs ++ [Commit (db c); Rollback (db c)]
        /\ (ExecBatchTx t c txs log).1.2
           = commit_err t (log ++ Begin (db c) :: batch_calls (db c) txs) (db c)
        /\ exists txs0 x r0,
             txs = txs0 ++ [x]
             /\ stmt_executes t (db c) (log ++ [Begin (db c)]) txs0 x = inl r0
             /\ (ExecBatchTx t c txs log).1.1 = Some r0)
    /\ (Commit (db c) ∉ calls ->
        (ExecBatchTx t c txs log).1.1 = None
        /\ is_Some (ExecBatchTx t c txs log).1.2)
    /\ ((ExecBatchTx t c txs log).1.2 = None -> Commit (db c) ∈ calls)
    /\ (begin_err t log (db c) = None ->
        exists pre, calls = pre ++ [Rollback (db c)])
    /\ (begin_err t log (db c) <> None -> calls = []).
Proof.
  destruct (ExecBatchTx_run t c txs log)
    as [(e & Hb & ->) | [(Hb & -> & ->)
       | [(Hb & e & txs1 & x & txs2 & Ht & Hrun1 & Hcase)
       | (Hb & Hrun & txs0 & x & r0 & Ht & He & ->)]]]; cbn [fst snd].
  - exists []. split; [reflexivity|].
    assert (Hno : Commit (db c) ∉ ([] : list TxCall)) by apply not_elem_of_nil.
    split; [split; [intros H; now apply Hno in H | intros (H & _); congruence]|].
    split; [intros H; now apply Hno in H|].
    split; [intros _; split; [reflexivity | eauto]|].
    split; [discriminate|]. split; [congruence | reflexivity].
  - exists [Rollback (db c)]. split; [reflexivity|].
    assert (Hno : Commit (db c) ∉ [Rollback (db c)]).
    { intros H. apply elem_of_cons in H as [H | H];
        [discriminate | now apply elem_of_nil in H]. }
    split; [split; [intros H; now apply Hno in H | intros (_ & H & _); congruence]|].
    split; [intros H; now apply Hno in H|].
    split; [intros _; split; [reflexivity | eauto]|].
    split; [discriminate|]. split; [now exists [] | congruence].
  - assert (Hstop : ~ stmts_run t (db c) (log ++ [Begin (db c)]) txs).
    { intros H. rewrite Ht in H. apply stmts_run_stops in H as (Hp & r & He).
      destruct Hcase as [(Hp' & _) | (_ & He' & _)]; congruence. }
    destruct Hcase as [(Hp & ->) | (Hp & He & ->)]; cbn [fst snd].
    + exists (batch_calls (db c) txs1
              ++ [TxPrepare (db c) (Tx_Query x); Rollback (db c)]).
      split; [reflexivity|].
      assert (Hno : Commit (db c)
                    ∉ batch_calls (db c) txs1
                      ++ [TxPrepare (db c) (Tx_Query x); Rollback (db c)]).
      { intros H. apply elem_of_app in H as [H | H].
        - now apply batch_calls_no_Commit in H.
        - repeat (apply elem_of_cons in H as [H | H]; [discriminate|]).
          now apply elem_of_nil in H. }
      split; [split; [intros H; now apply Hno in H
                     | intros (_ & _ & H); now apply Hstop in H]|].
      split; [intros H; now apply Hno in H|].
      split; [intros _; split; [reflexivity | eauto]|].
      split; [discriminate|]. split; [|congruence].
      intros _. exists (batch_calls (db c) txs1 ++ [TxPrepare (db c) (Tx_Query x)]).
      now rewrite <- app_assoc.
    + exists (batch_calls (db c) txs1
              ++ [TxPrepare (db c) (Tx_Query x);
                  TxStmtExec (db c) (Tx_Query x) (elems (Tx_Args x));
                  Rollback (db c)]).
      split; [reflexivity|].
      assert (Hno : Commit (db c)
                    ∉ batch_calls (db c) txs1
                      ++ [TxPrepare (db c) (Tx_Query x);
                          TxStmtExec (db c) (Tx_Query x) (elems (Tx_Args x));
                          Rollback (db c)]).
      { intros H. apply elem_of_app in H as [H | H].
        - now apply batch_calls_no_Commit in H.
        - repeat (apply elem_of_cons in H as [H | H]; [discriminate|]).
          now apply elem_of_nil in H. }
      split; [split; [intros H; now apply Hno in H
                     | intros (_ & _ & H); now apply Hstop in H]|].
      split; [intros H; now apply Hno in H|].
      split; [intros _; split; [reflexivity | eauto]|].
      split; [discriminate|]. split; [|congruence].
      intros _. exists (batch_calls (db c) txs1
                        ++ [TxPrepare (db c) (Tx_Query x);
                            TxStmtExec (db c) (Tx_Query x) (elems (Tx_Args x))]).
      now rewrite <- app_assoc.
  - exists (batch_calls (db c) txs ++ [Commit (db c); Rollback (db c)]).
    split; [reflexivity|].
    assert (Hin : Commit (db c)
                  ∈ batch_calls (db c) txs ++ [Commit (db c); Rollback (db c)]).
    { apply elem_of_app. right. now left. }
    assert (Hne : txs <> []).
    { rewrite Ht. intros H. now apply app_eq_nil in H as [_ H]. }
    split; [split; [intros _; split; [exact Hb | split; [exact Hne | exact Hrun]]
                   | intros _; exact Hin]|].
    split.
    { intros _. split; [reflexivity|]. split; [reflexivity|].
      exists txs0, x, r0. now repeat split. }
    split; [intros H; now apply H in Hin|].
    split; [intros _; exact Hin|]. split; [|congruence].
    intros _. exists (batch_calls (db c) txs ++ [Commit (db c)]).
    now rewrite <- app_assoc.
Qed.

(** X19. How [ExecBatchTx] fails once the transaction has begun.  An
    empty batch is refused and the transaction rolled back at once.  When
    the database prepares and executes the statements before some
    statement and refuses to prepare that one, the call returns that error
    and no result, and the transaction is rolled back right after the
    failed [Prepare]; when it prepares that statement and refuses to
    execute it, the call returns that error and no result, and the
    transaction is rolled back with that statement left open.  When every
    statement runs and [Commit] fails, the call returns the error of
    [Commit] together with a result.  An error the call returns comes from
    one of these four. *)
Theorem ExecBatchTx_failure (c : Conn) (txs : list Tx) (log : list TxCall) :
  begin_err t log (db c) = None ->
  (txs = [] ->
   ExecBatchTx t c txs log
   = ((None, Some (errors_New "empty submit tx")),
      log ++ [Begin (db c); Rollback (db c)]))
  /\ (forall txs1 x txs2 e,
        txs = txs1 ++ x :: txs2 ->
        stmts_run t (db c) (log ++ [Begin (db c)]) txs1 ->
        stmt_prepares t (db c) (log ++ [Begin (db c)]) txs1 x = Some e ->
        ExecBatchTx t c txs log
        = ((None, Some e),
           log ++ Begin (db c) :: batch_calls (db c) txs1
           ++ [TxPrepare (db c) (Tx_Query x); Rollback (db c)]))
  /\ (forall txs1 x txs2 e,
        txs = txs1 ++ x :: txs2 ->
        stmts_run t (db c) (log ++ [Begin (db c)]) txs1 ->
        stmt_prepares t (db c) (log ++ [Begin (db c)]) txs1 x = None ->
        stmt_executes t (db c) (log ++ [Begin (db c)]) txs1 x = inr e ->
        ExecBatchTx t c txs log
        = ((None, Some e),
           log ++ Begin (db c) :: batch_calls (db c) txs1
           ++ [TxPrepare (db c) (Tx_Query x);
               TxStmtExec (db c) (Tx_Query x) (elems (Tx_Args x));
               Rollback (db c)]))
  /\ (forall e,
        txs <> [] ->
        stmts_run t (db c) (log ++ [Begin (db c)]) txs ->
        commit_err t (log ++ Begin (db c) :: batch_calls (db c) txs) (db c)
        = Some e ->
        (ExecBatchTx t c txs log).1.2 = Some e
        /\ is_Some (ExecBatchTx t c txs log).1.1
        /\ (ExecBatchTx t c txs log).2
           = log ++ Begin (db c) :: batch_calls (db c) txs
             ++ [Commit (db c); Rollback (db c)])
  /\ (forall e,
        (ExecBatchTx t c txs log).1.2 = Some e ->
        (txs = [] /\ e = errors_New "empty submit tx")
        \/ (exists txs1 x txs2,
              txs = txs1 ++ x :: txs2
              /\ stmts_run t (db c) (log ++ [Begin (db c)]) txs1
              /\ (stmt_prepares t (db c) (log ++ [Begin (db c)]) txs1 x = Some e
                  \/ (stmt_prepares t (db c) (log ++ [Begin (db c)]) txs1 x = None
                      /\ stmt_executes t (db c) (log ++ [Begin (db c)]) txs1 x
                         = inr e)))
        \/ (txs <> [] /\ stmts_run t (db c) (log ++ [Begin (db c)]) txs
            /\ commit_err t (log ++ Begin (db c) :: batch_calls (db c) txs) (db c)
               = Some e)).
Proof.
  intros Hbegin.
  destruct (ExecBatchTx_run t c txs log)
    as [(e0 & Hb & _) | [(Hb & Hnil & Hrun0)
       | [(Hb & e0 & l & y & r & Ht & Hrunl & Hcase)
       | (Hb & Hrun & txs0 & y & r0 & Ht & He & Hrun4)]]]; [congruence| | |].
  - (* the empty batch *)
    split; [intros _; exact Hrun0|].
    split; [intros [|? ?] ? ? ? H; subst; discriminate|].
    split; [intros [|? ?] ? ? ? H; subst; discriminate|].
    split; [intros ? H; congruence|].
    intros e H. rewrite Hrun0 in H. injection H as <-. now left.
  - (* a statement fails *)
    assert (Hfail : ~ (stmt_prepares t (db c) (log ++ [Begin (db c)]) l y = None
                       /\ exists r1, stmt_executes t (db c) (log ++ [Begin (db c)])
                                       l y = inl r1)).
    { intros (Hp & r1 & He). destruct Hcase as [(? & _) | (_ & ? & _)]; congruence. }
    split; [intros ->; now destruct l|].
    split.
    { intros txs1 x txs2 e Hsplit Hrun1 Hp.
      destruct (first_failure_unique t (db c) (log ++ [Begin (db c)])
                  txs1 l txs2 r x y) as (-> & -> & ->);
        [congruence | assumption | assumption | intros [? _]; congruence
        | exact Hfail |].
      destruct Hcase as [(Hp' & ->) | (Hp' & _)]; congruence. }
    split.
    { intros txs1 x txs2 e Hsplit Hrun1 Hp He.
      destruct (first_failure_unique t (db c) (log ++ [Begin (db c)])
                  txs1 l txs2 r x y) as (-> & -> & ->);
        [congruence | assumption | assumption
        | intros (_ & ? & ?); congruence | exact Hfail |].
      destruct Hcase as [(Hp' & _) | (_ & He' & ->)]; congruence. }
    split.
    { intros e _ Hrun _. exfalso. apply Hfail. rewrite Ht in Hrun.
      now apply stmts_run_stops in Hrun. }
    intros e H. right. left. exists l, y, r. split; [exact Ht|].
    split; [exact Hrunl|].
    destruct Hcase as [(Hp & Hx) | (Hp & He & Hx)]; rewrite Hx in H;
      injection H as <-; [left | right]; auto.
  - (* the whole batch runs *)
    assert (Hne : txs <> []).
    { rewrite Ht. intros H. now apply app_eq_nil in H as [_ H]. }
    split; [intros H; congruence|].
    split.
    { intros txs1 x txs2 e Hsplit _ Hp. exfalso. rewrite Hsplit in Hrun.
      apply stmts_run_stops in Hrun as (? & _). congruence. }
    split.
    { intros txs1 x txs2 e Hsplit _ _ Hx. exfalso. rewrite Hsplit in Hrun.
      apply stmts_run_stops in Hrun as (_ & ? & ?). congruence. }
    split.
    { intros e _ _ Hc. rewrite Hrun4. cbn [fst snd]. split; [exact Hc|].
      split; [eauto | reflexivity]. }
    intros e H. right. right. rewrite Hrun4 in H. cbn [fst snd] in H.
    split; [exact Hne | split; [exact Hrun | exact H]].
Qed.

(** X20. [ExecTx], by what the database answers.  When the transaction
    cannot begin, the error is returned and nothing else is called.  When
    the statement cannot be prepared, the error is returned and the
    transaction rolled back.  When the statement is prepared and cannot be
    executed, the error is returned, the statement is closed and the
    transaction rolled back.  When the statement is executed, the
    transaction is committed, the statement closed and [Rollback] called
    last, and the result of the statement is returned together with
    whatever [Commit] returned.  So the statement is closed exactly when
    it was prepared, [Commit] is called exactly when it was executed, and
    [Rollback] is the last call whenever the transaction began. *)
Theorem ExecTx_paths (c : Conn) (query : string) (args : slice Value)
    (log : list TxCall) :
  (forall e, begin_err t log (db c) = Some e ->
             ExecTx t c query args log = ((None, Some e), log ++ [Begin (db c)]))
  /\ (forall e,
        begin_err t log (db c) = None ->
        tx_prepare_err t (log ++ [Begin (db c)]) (db c) query = Some e ->
        ExecTx t c query args log
        = ((None, Some e),
           log ++ [Begin (db c); TxPrepare (db c) query; Rollback (db c)]))
  /\ (forall e,
        begin_err t log (db c) = None ->
        tx_prepare_err t (log ++ [Begin (db c)]) (db c) query = None ->
        tx_stmt_exec t (log ++ [Begin (db c); TxPrepare (db c) query]) (db c)
          query (elems args) = inr e ->
        ExecTx t c query args log
        = ((None, Some e),
           log ++ [Begin (db c); TxPrepare (db c) query;
                   TxStmtExec (db c) query (elems args);
                   TxStmtClose (db c) query; Rollback (db c)]))
  /\ (forall res,
        begin_err t log (db c) = None ->
        tx_prepare_err t (log ++ [Begin (db c)]) (db c) query = None ->
        tx_stmt_exec t (log ++ [Begin (db c); TxPrepare (db c) query]) (db c)
          query (elems args) = inl res ->
        ExecTx t c query args log
        = ((Some res,
            commit_err t (log ++ [Begin (db c); TxPrepare (db c) query;
                                  TxStmtExec (db c) query (elems args)]) (db c)),
           log ++ [Begin (db c); TxPrepare (db c) query;
                   TxStmtExec (db c) query (elems args); Commit (db c);
                   TxStmtClose (db c) query; Rollback (db c)]))
  /\ exists calls,
       (ExecTx t c query args log).2 = log ++ Begin (db c) :: calls
       /\ (TxStmtClose (db c) query ∈ calls
           <-> begin_err t log (db c) = None
               /\ tx_prepare_err t (log ++ [Begin (db c)]) (db c) query = None)
       /\ (Commit (db c) ∈ calls
           <-> begin_err t log (db c) = None
               /\ tx_prepare_err t (log ++ [Begin (db c)]) (db c) query = None
               /\ exists res,
                    tx_stmt_exec t (log ++ [Begin (db c); TxPrepare (db c) query])
                      (db c) query (elems args) = inl res)
       /\ (begin_err t log (db c) = None ->
           exists pre, calls = pre ++ [Rollback (db c)])
       /\ (begin_err t log (db c) <> None -> calls = []).
Proof.
  unfold ExecTx, BeginTx, Tx_Prepare, TxStmt_Exec, TxStmt_Close, Tx_Commit,
    Tx_Rollback, bindT, retT. cbn beta iota.
  destruct (begin_err t log (db c)) as [e|].
  { split; [now intros ? [= <-]|]. do 3 (split; [discriminate|]).
    exists []. split; [reflexivity|].
    split; [split; [intros H; now apply elem_of_nil in H | intros [? _]; congruence]|].
    split; [split; [intros H; now apply elem_of_nil in H | intros [? _]; congruence]|].
    split; [discriminate | reflexivity]. }
  rewrite <- !app_assoc. cbn [app].
  split; [discriminate|].
  destruct (tx_prepare_err t (log ++ [Begin (db c)]) (db c) query) as [e|].
  { split; [intros ? _ [= <-]; now rewrite <- !app_assoc|].
    do 2 (split; [discriminate|]).
    exists [TxPrepare (db c) query; Rollback (db c)].
    split; [now rewrite <- !app_assoc|].
    split; [split; [|intros [_ ?]; congruence]|].
    { intros H. repeat (apply elem_of_cons in H as [H | H]; [discriminate|]).
      now apply elem_of_nil in H. }
    split; [split; [|intros (_ & ? & _); congruence]|].
    { intros H. repeat (apply elem_of_cons in H as [H | H]; [discriminate|]).
      now apply elem_of_nil in H. }
    split; [intros _; now exists [TxPrepare (db c) query] | congruence]. }
  split; [discriminate|].
  destruct (tx_stmt_exec t (log ++ [Begin (db c); TxPrepare (db c) query]) (db c)
              query (elems args)) as [res|e] eqn:Hx.
  - split; [discriminate|].
    split; [intros ? _ _ [= <-]; now rewrite <- !app_assoc|].
    exists [TxPrepare (db c) query; TxStmtExec (db c) query (elems args);
            Commit (db c); TxStmtClose (db c) query; Rollback (db c)].
    split; [now rewrite <- !app_assoc|].
    split; [split; [now intros _ | intros _; do 3 right; now left]|].
    split; [split; [intros _; repeat split; eauto | intros _; do 2 right; now left]|].
    split; [|congruence].
    intros _. now exists [TxPrepare (db c) query; TxStmtExec (db c) query (elems args);
                          Commit (db c); TxStmtClose (db c) query].
  - split; [intros ? _ _ [= <-]; now rewrite <- !app_assoc|].
    split; [discriminate|].
    exists [TxPrepare (db c) query; TxStmtExec (db c) query (elems args);
            TxStmtClose (db c) query; Rollback (db c)].
    split; [now rewrite <- !app_assoc|].
    split; [split; [now intros _ | intros _; do 2 right; now left]|].
    split; [split; [|intros (_ & _ & ? & ?); congruence]|].
    { intros H. repeat (apply elem_of_cons in H as [H | H]; [discriminate|]).
      now apply elem_of_nil in H. }
    split; [|congruence].
    intros _. now exists [TxPrepare (db c) query; TxStmtExec (db c) query (elems args);
                          TxStmtClose (db c) query].
Qed.

End TransactionProperties.

Lemma ExecBatchTx_failure_witness :
  begin_err no_drop_tx_driver [] (db conn0) = None
  /\ ExecBatchTx no_drop_tx_driver conn0 [tx_bill; tx_drop] []
     = ((None, Some (sql_error "command denied")),
        [Begin (db conn0);
         TxPrepare (db conn0) (Tx_Query tx_bill);
         TxStmtExec (db conn0) (Tx_Query tx_bill) [VStr "Bill"; VInt 1];
         TxStmtClose (db conn0) (Tx_Query tx_bill);
         TxPrepare (db conn0) (Tx_Query tx_drop);
         TxStmtExec (db conn0) (Tx_Query tx_drop) [];
         Rollback (db conn0)]).
Proof.
  split; [reflexivity|].
  destruct (ExecBatchTx_failure no_drop_tx_driver conn0 [tx_bill; tx_drop] []
              eq_refl) as (_ & _ & H & _).
  apply (H [tx_bill] tx_drop [] (sql_error "command denied")).
  - reflexivity.
  - apply stmts_run_cons. split; [reflexivity|].
    split; [now exists ok_Result | apply stmts_run_nil].
  - reflexivity.
  - reflexivity.
Defined.

(** ** The empty name *)

(** X21. A configuration registered under the empty name cannot be looked
    up: after a successful [RegisterDB] of a map that holds the name [""],
    the registry holds a pool under it, and [Get] still answers
    [ErrConnName] for it without reading the registry. *)
Theorem empty_name_unreachable (d : Driver) (r : ranger)
    (cfgs : gmap string Config) (st : State) (c : Config) :
  (RegisterDB d r cfgs st).1 = None ->
  cfgs !! "" = Some c ->
  (exists p, pool (RegisterDB d r cfgs st).2 !! "" = Some p
             /\ opened st <= p < opened (RegisterDB d r cfgs st).2)
  /\ Get "" (RegisterDB d r cfgs st).2
     = ((None, Some ErrConnName), (RegisterDB d r cfgs st).2).
Proof.
  intros Hnone Hc. rewrite (RegisterDB_None d r cfgs st Hnone).
  split; [|reflexivity].
  assert (Hin : ("", c) ∈ range r cfgs) by now apply range_elem.
  apply list_elem_of_lookup in Hin as [i Hi].
  exists (opened st + i).
  rewrite (after_registering_lookup _ st i "" c (range_NoDup_keys r cfgs) Hi).
  split; [reflexivity|].
  rewrite after_registering_opened. apply lookup_lt_Some in Hi. lia.
Qed.

Lemma empty_name_unreachable_witness :
  (exists p,
     pool (RegisterDB ok_driver canonical_ranger (<["" := game_Config]> ∅)
             empty_State).2 !! "" = Some p
     /\ opened empty_State <= p
        < opened (RegisterDB ok_driver canonical_ranger (<["" := game_Config]> ∅)
                    empty_State).2)
  /\ Get "" (RegisterDB ok_driver canonical_ranger (<["" := game_Config]> ∅)
               empty_State).2
     = ((None, Some ErrConnName),
        (RegisterDB ok_driver canonical_ranger (<["" := game_Config]> ∅)
           empty_State).2).
Proof.
  apply (empty_name_unreachable ok_driver canonical_ranger
           (<["" := game_Config]> ∅) empty_State game_Config).
  - vm_compute. reflexivity.
  - vm_compute. reflexivity.
Defined.

(** ** Placeholders and arguments of a write *)

Lemma count_byte_Join (c : ascii) (l : list string) :
  c <> ","%char ->
  count_byte c (Join l ",") = sum_list (count_byte c <$> l).
Proof.
  intros Hc. induction l as [|x l IH]; [reflexivity|].
  destruct l as [|y l].
  - cbn. lia.
  - rewrite Join_cons2, !count_byte_app, IH.
    cbn [fmap list_fmap sum_list sum_list_with count_byte].
    destruct (Ascii.eqb "," c) eqn:E; [apply Ascii.eqb_eq in E; congruence|].
    cbn. lia.
Qed.

Lemma count_marks_quote (ks : list string) :
  Forall (fun k => count_byte "?" k = 0) ks ->
  count_byte "?" (Join (quote <$> ks) ",") = 0.
Proof.
  intros H. rewrite count_byte_Join by discriminate.
  induction H as [|k ks Hk _ IH]; [reflexivity|].
  cbn [fmap list_fmap sum_list sum_list_with] in *. unfold quote at 1.
  rewrite !count_byte_app, Hk. cbn. exact IH.
Qed.

Lemma count_marks_clause (ks : list string) :
  Forall (fun k => count_byte "?" k = 0) ks ->
  count_byte "?" (Join (clause <$> ks) ",") = length ks.
Proof.
  intros H. rewrite count_byte_Join by discriminate.
  induction H as [|k ks Hk _ IH]; [reflexivity|].
  cbn [fmap list_fmap sum_list sum_list_with length] in *.
  unfold clause at 1, quote at 1.
  rewrite !count_byte_app, Hk. cbn. now rewrite IH.
Qed.

Lemma Do_Update_sent (d : Driver) (rv rw : ranger) (m : Meta) (conn : Conn)
    (st : State) :
  Op m = U ->
  sent (Do d rv rw m conn st).2
  = sent st ++ execute_calls d st conn
      ("UPDATE " +:+ Table m +:+ " SET "
       +:+ Join (clause <$> (range rv (Values m)).*1) "," +:+ " WHERE "
       +:+ Join (clause <$> (range rw (Where m)).*1) ",")
      ((range rv (Values m)).*2 ++ (range rw (Where m)).*2).
Proof.
  intros Hop. rewrite (Do_Update_state d rv rw m conn st Hop), execute_sent.
  rewrite !SplitWrap_any. cbn [fst snd].
  now rewrite Sprintf_rawUpdate, elems_append.
Qed.

(** X22. In the statement a Create, Update or Delete dispatch sends, the
    number of placeholders is the number of arguments, provided neither
    the table name nor a key of the two maps holds a question mark. *)
Theorem write_placeholders_match_args (d : Driver) (rv rw : ranger) (m : Meta)
    (conn : Conn) (st : State) :
  Op m = C \/ Op m = U \/ Op m = D ->
  count_byte "?" (Table m) = 0 ->
  (forall k, is_Some (Values m !! k) \/ is_Some (Where m !! k) ->
             count_byte "?" k = 0) ->
  exists q a,
    sent (Do d rv rw m conn st).2 = sent st ++ execute_calls d st conn q a
    /\ count_byte "?" q = length a.
Proof.
  intros Hk Ht Hkeys.
  assert (Hv : Forall (fun k => count_byte "?" k = 0) (range rv (Values m)).*1).
  { apply Forall_forall. intros k Hin. apply Hkeys. left. now apply range_keys in Hin. }
  assert (Hw : Forall (fun k => count_byte "?" k = 0) (range rw (Where m)).*1).
  { apply Forall_forall. intros k Hin. apply Hkeys. right. now apply range_keys in Hin. }
  destruct Hk as [Hop | [Hop | Hop]]; eexists _, _.
  - split; [apply (Do_Create_sent d rv rw m conn st Hop)|].
    rewrite !count_byte_app, Ht, count_marks_quote by exact Hv.
    rewrite count_placeholders, length_fmap. simpl count_byte. lia.
  - split; [apply (Do_Update_sent d rv rw m conn st Hop)|].
    rewrite !count_byte_app, Ht, !count_marks_clause by assumption.
    rewrite length_app, !length_fmap. simpl count_byte. lia.
  - split; [apply (Do_Delete_sent d rv rw m conn st Hop)|].
    rewrite !count_byte_app, Ht, count_marks_clause by assumption.
    rewrite !length_fmap. simpl count_byte. lia.
Qed.

Lemma write_placeholders_match_args_witness :
  exists q a,
    sent (Do ok_driver canonical_ranger canonical_ranger profile_update conn0
            empty_State).2
    = sent empty_State ++ execute_calls ok_driver empty_State conn0 q a
    /\ count_byte "?" q = length a.
Proof.
  apply (write_placeholders_match_args ok_driver canonical_ranger
           canonical_ranger profile_update conn0 empty_State).
  - right. left. reflexivity.
  - reflexivity.
  - intros k [[v Hk] | [v Hk]].
    + unfold profile_update, kv_tomi in Hk. cbn in Hk.
      apply lookup_insert_Some in Hk as [[<- _] | [_ Hk]]; [reflexivity|].
      apply lookup_insert_Some in Hk as [[<- _] | [_ Hk]]; [reflexivity|].
      rewrite lookup_empty in Hk. discriminate.
    + unfold profile_update, kv_id in Hk. cbn in Hk.
      apply lookup_insert_Some in Hk as [[<- _] | [_ Hk]]; [reflexivity|].
      rewrite lookup_empty in Hk. discriminate.
Defined.
